(** * auto-complete-element: the attribute-driven controller of
      [src/auto-complete-element.ts]

    The custom element [AutoCompleteElement] binds a results container, a
    visible input and an optional hidden input to an [Autocomplete] engine,
    reacts to attribute mutations, and owns one cancelable network request.
    The class is embedded here function by function.  Object identities
    (DOM elements, engines, abort controllers) are natural numbers; the
    module-level [WeakMap] is a [gmap]; calls into collaborators that live
    outside the file (the engine, the input elements, the transport) are
    recorded, in program order, in an effect trace. *)

From stdpp Require Import gmap strings list fin_maps.

Local Open Scope string_scope.
Local Open Scope nat_scope.
Local Open Scope list_scope.

(** ** JavaScript values *)

(** Identity of a DOM element.  The host [this] is an element too. *)
Definition Element := nat.

(** What [getRootNode()] can return: the [instanceof] tests of the
    [forElement] getter distinguish documents and shadow roots from the
    root of a detached subtree. *)
Inductive RootNode :=
| Document (d : nat)
| ShadowRoot (s : nat)
| DetachedRoot (e : Element).

Inductive Exn :=
| TypeError
| Error (message : string)
| DOMException (name : string).

(** Normal or abrupt completion of a call; a settled promise. *)
Inductive Completion (A : Type) :=
| Normal (a : A)
| Throw (e : Exn).
Arguments Normal {A} a.
Arguments Throw {A} e.

(** [x || d] on [string | null] operands: [null] and [''] are falsy. *)
Definition truthy (v : option string) : bool :=
  match v with
  | Some s => negb (String.eqb s "")
  | None => false
  end.

Definition or_string (v : option string) (d : string) : string :=
  match v with
  | Some s => if truthy v then s else d
  | None => d
  end.

(** [x !== y] where [x] is [Element | null] and [y] is the result of an
    optional chain [o?.f], an [Element] or [undefined]: [null] on the left
    and [undefined] on the right are different values. *)
Definition strict_ne (x : option Element) (y : option Element) : bool :=
  match x, y with
  | Some a, Some b => bool_decide (a ≠ b)
  | _, _ => true
  end.

(** ** The document *)

(** The part of the platform the element reads: connectivity, the
    attribute store, and the two lookups. *)
Record Dom := {
  isConnected : Element → bool;
  attributes : Element → gmap string string;
  getRootNode : Element → RootNode;
  getElementById : RootNode → string → option Element;
  querySelector : Element → string → option Element;
}.

Definition instanceof_Document_or_ShadowRoot (r : RootNode) : bool :=
  match r with
  | Document _ | ShadowRoot _ => true
  | DetachedRoot _ => false
  end.

Definition update_attributes (d : Dom) (e : Element)
    (f : gmap string string → gmap string string) : Dom :=
  {| isConnected := isConnected d;
     attributes := λ e', if decide (e' = e) then f (attributes d e') else attributes d e';
     getRootNode := getRootNode d;
     getElementById := getElementById d;
     querySelector := querySelector d |}.

(** ** The engine *)

(** Modelled from the spec: the class [Autocomplete] of [./autocomplete.js]
    is imported but is not part of the sources.  Section 6 gives its
    interface: readable [input], [hiddenInput] and [results] fields, and a
    constructor taking (host, input, hiddenInput-or-absent, forTarget,
    autoselectFlag).  [uid] is the identity of the object. *)
Record Autocomplete := {
  uid : nat;
  container : Element;
  input : Element;
  hiddenInput : option Element;
  results : Element;
  autoselectEnabled : bool;
}.

Global Instance Autocomplete_eq_dec : EqDecision Autocomplete.
Proof. solve_decision. Defined.

(** [class AutoCompleteEvent extends Event] *)
Record AutoCompleteEvent := {
  type : string;
  bubbles : bool;
  relatedTarget : Element;
}.

(** Calls that leave the file, in program order. *)
Inductive Effect :=
| New_Autocomplete (a : Autocomplete)
| Destroy (a : nat)
| Open (a : nat)
| Close (a : nat)
| SetValue (e : Element) (v : option string)
| DispatchEvent (target : Element) (ev : AutoCompleteEvent).

(** ** The element *)

(** The private fields [#forElement], [#inputElement] and
    [#hiddenInputElement] of one instance. *)
Record Private := {
  priv_forElement : option Element;
  priv_inputElement : option Element;
  priv_hiddenInputElement : option Element;
}.

Definition Private_init : Private :=
  {| priv_forElement := None; priv_inputElement := None; priv_hiddenInputElement := None |}.

Record World := {
  dom : Dom;
  state : gmap Element Autocomplete;      (* const state = new WeakMap() *)
  priv : Element → Private;
  allocated : nat;                        (* engines constructed so far *)
  trace : list Effect;
}.

Definition initial (d : Dom) : World :=
  {| dom := d; state := ∅; priv := λ _, Private_init; allocated := 0; trace := [] |}.

(** State and exceptions. *)
Definition M (A : Type) : Type := World → Completion A * World.

Global Instance M_ret : MRet M := λ A a w, (Normal a, w).
Global Instance M_bind : MBind M := λ A B k m w,
  match m w with
  | (Normal a, w') => k a w'
  | (Throw e, w') => (Throw e, w')
  end.
Definition ret {A} (a : A) : M A := mret a.
Definition throw {A} (e : Exn) : M A := λ w, (Throw e, w).
Definition gets {A} (f : World → A) : M A := λ w, (Normal (f w), w).
Definition modify (f : World → World) : M unit := λ w, (Normal tt, f w).

Definition emit (e : Effect) : M unit :=
  modify (λ w, {| dom := dom w; state := state w; priv := priv w;
                  allocated := allocated w; trace := trace w ++ [e] |}).

Definition set_dom (d : Dom) : M unit :=
  modify (λ w, {| dom := d; state := state w; priv := priv w;
                  allocated := allocated w; trace := trace w |}).

Definition set_state (s : gmap Element Autocomplete) : M unit :=
  modify (λ w, {| dom := dom w; state := s; priv := priv w;
                  allocated := allocated w; trace := trace w |}).

Definition set_priv (this : Element) (f : Private → Private) : M unit :=
  modify (λ w, {| dom := dom w; state := state w;
                  priv := λ e, if decide (e = this) then f (priv w e) else priv w e;
                  allocated := allocated w; trace := trace w |}).

Definition getAttribute (this : Element) (name : string) (w : World) : option string :=
  attributes (dom w) this !! name.

Definition hasAttribute (this : Element) (name : string) (w : World) : bool :=
  bool_decide (is_Some (attributes (dom w) this !! name)).

(** [r?.isConnected] *)
Definition connected (w : World) (r : option Element) : bool :=
  match r with
  | Some e => isConnected (dom w) e
  | None => false
  end.

(** [get forElement()] *)
Definition forElement (this : Element) (w : World) : option Element :=
  if connected w (priv_forElement (priv w this)) then priv_forElement (priv w this)
  else
    let id := getAttribute this "for" w in
    let root := getRootNode (dom w) this in
    if truthy id && instanceof_Document_or_ShadowRoot root
    then getElementById (dom w) root (default "" id)
    else None.

(** [get inputElement()] *)
Definition inputElement (this : Element) (w : World) : option Element :=
  if connected w (priv_inputElement (priv w this)) then priv_inputElement (priv w this)
  else querySelector (dom w) this "input".

(** [get hiddenInputElement()] *)
Definition hiddenInputElement (this : Element) (w : World) : option Element :=
  if connected w (priv_hiddenInputElement (priv w this))
  then priv_hiddenInputElement (priv w this)
  else querySelector (dom w) this "input[type='hidden']".

(** [new Autocomplete(...)]: the next free identity. *)
Definition new_Autocomplete (this inputEl : Element) (hiddenEl : option Element)
    (forEl : Element) (autoselect : bool) : M Autocomplete :=
  λ w,
    let a := {| uid := allocated w; container := this; input := inputEl;
                hiddenInput := hiddenEl; results := forEl;
                autoselectEnabled := autoselect |} in
    (Normal a,
     {| dom := dom w; state := state w; priv := priv w;
        allocated := S (allocated w); trace := trace w ++ [New_Autocomplete a] |}).

(** [static get observedAttributes()] *)
Definition observedAttributes : list string := ["open"; "value"; "for"; "data-value"].

(** [e.setAttribute(name, value)] for a name no element observes: only the
    attribute store changes. *)
Definition setAttribute_unobserved (e : Element) (name value : string) : M unit :=
  d ← gets dom;
  set_dom (update_attributes d e (λ m, <[name := value]> m)).

(** [#reattachState()] *)
Definition reattachState (this : Element) : M unit :=
  old ← gets (λ w, state w !! this);
  match old with
  | Some a => emit (Destroy (uid a))
  | None => ret tt
  end;;
  forEl ← gets (forElement this);
  inputEl ← gets (inputElement this);
  hiddenEl ← gets (hiddenInputElement this);
  match forEl, inputEl with
  | Some forEl, Some inputEl =>
      autoselectEnabled ← gets (λ w, bool_decide (getAttribute this "data-autoselect" w = Some "true"));
      a ← new_Autocomplete this inputEl hiddenEl forEl autoselectEnabled;
      s ← gets state;
      set_state (<[this := a]> s);;
      setAttribute_unobserved forEl "role" "listbox"
  | _, _ => ret tt
  end.

(** [connectedCallback()] *)
Definition connectedCallback (this : Element) : M unit :=
  c ← gets (λ w, isConnected (dom w) this);
  if negb c then ret tt else reattachState this.

(** [disconnectedCallback()] *)
Definition disconnectedCallback (this : Element) : M unit :=
  autocomplete ← gets (λ w, state w !! this);
  match autocomplete with
  | Some a =>
      emit (Destroy (uid a));;
      s ← gets state;
      set_state (delete this s)
  | None => ret tt
  end.

(** [attributeChangedCallback(name, oldValue, newValue)] *)
Definition attributeChangedCallback (this : Element) (name : string)
    (oldValue newValue : option string) : M unit :=
  if bool_decide (oldValue = newValue) then ret tt else
  autocomplete ← gets (λ w, state w !! this);
  match autocomplete with
  | None => ret tt
  | Some autocomplete =>
      rebind ← gets (λ w,
        strict_ne (forElement this w) (results <$> state w !! this)
        || strict_ne (inputElement this w) (input <$> state w !! this));
      (if rebind : bool then reattachState this else ret tt);;
      if String.eqb name "open" then
        match newValue with
        | None => emit (Close (uid autocomplete))
        | Some _ => emit (Open (uid autocomplete))
        end
      else if String.eqb name "data-value" then
        match hiddenInput autocomplete with
        | Some h => emit (SetValue h newValue)
        | None => throw TypeError
        end
      else if String.eqb name "value" then
        match newValue with
        | Some v => emit (SetValue (input autocomplete) (Some v))
        | None => ret tt
        end;;
        emit (DispatchEvent this
                {| type := "auto-complete-change"; bubbles := true;
                   relatedTarget := input autocomplete |})
      else ret tt
  end.

(** A custom element reaction: an exception thrown by the callback is
    reported by the platform and does not reach the code that changed the
    attribute. *)
Definition reaction (m : M unit) : M unit :=
  λ w, (Normal tt, (m w).2).

(** [this.setAttribute(name, value)] on the host: the store changes, then
    the element is told when the name is observed (also when the value is
    the one it had).  Here and in the other attribute operations [name]
    is the name as the DOM stores it, in lower case: the element's own
    code passes lower-case literals only. *)
Definition setAttribute (this : Element) (name value : string) : M unit :=
  old ← gets (getAttribute this name);
  d ← gets dom;
  set_dom (update_attributes d this (λ m, <[name := value]> m));;
  if bool_decide (name ∈ observedAttributes)
  then reaction (attributeChangedCallback this name old (Some value))
  else ret tt.

(** [this.removeAttribute(name)]: nothing happens when it is absent. *)
Definition removeAttribute (this : Element) (name : string) : M unit :=
  old ← gets (getAttribute this name);
  match old with
  | None => ret tt
  | Some _ =>
      d ← gets dom;
      set_dom (update_attributes d this (λ m, delete name m));;
      if bool_decide (name ∈ observedAttributes)
      then reaction (attributeChangedCallback this name old None)
      else ret tt
  end.

(** [this.toggleAttribute(name, force)] *)
Definition toggleAttribute (this : Element) (name : string) (force : bool) : M unit :=
  old ← gets (getAttribute this name);
  match old, force with
  | None, true => setAttribute this name ""
  | Some _, false => removeAttribute this name
  | _, _ => ret tt
  end.

(** [set forElement(element)] *)
Definition set_forElement (this : Element) (element : option Element) : M unit :=
  set_priv this (λ p, {| priv_forElement := element;
                         priv_inputElement := priv_inputElement p;
                         priv_hiddenInputElement := priv_hiddenInputElement p |});;
  setAttribute this "for" "".

(** [set inputElement(input)] *)
Definition set_inputElement (this : Element) (input : option Element) : M unit :=
  set_priv this (λ p, {| priv_forElement := priv_forElement p;
                         priv_inputElement := input;
                         priv_hiddenInputElement := priv_hiddenInputElement p |});;
  reattachState this.

(** [set hiddenInputElement(input)] *)
Definition set_hiddenInputElement (this : Element) (input : option Element) : M unit :=
  set_priv this (λ p, {| priv_forElement := priv_forElement p;
                         priv_inputElement := priv_inputElement p;
                         priv_hiddenInputElement := input |});;
  reattachState this.

(** [get src()], [get value()], [get dataValue()] *)
Definition src (this : Element) (w : World) : string :=
  or_string (getAttribute this "src" w) "".

Definition value (this : Element) (w : World) : string :=
  or_string (getAttribute this "value" w) "".

Definition dataValue (this : Element) (w : World) : string :=
  or_string (getAttribute this "data-value" w) "".

(** [set src(url)], [set value(value)], [set dataValue(dataValue)] *)
Definition set_src (this : Element) (url : string) : M unit :=
  setAttribute this "src" url.

Definition set_value (this : Element) (v : string) : M unit :=
  setAttribute this "value" v.

Definition set_dataValue (this : Element) (v : string) : M unit :=
  setAttribute this "data-value" v.

(** [get open()], [set open(value)] *)
Definition open (this : Element) (w : World) : bool :=
  hasAttribute this "open" w.

Definition set_open (this : Element) (v : bool) : M unit :=
  if v then setAttribute this "open" "" else removeAttribute this "open".

(** [get fetchOnEmpty()], [set fetchOnEmpty(fetchOnEmpty)] *)
Definition fetchOnEmpty (this : Element) (w : World) : bool :=
  hasAttribute this "fetch-on-empty" w.

Definition set_fetchOnEmpty (this : Element) (v : bool) : M unit :=
  toggleAttribute this "fetch-on-empty" v.

(** ** Histories *)

(** What can happen to an element between two observations: the platform
    runs one of its callbacks, a script uses one of its accessors or
    changes one of its attributes, or the document changes around it. *)
Inductive Call :=
| ConnectedCallback (this : Element)
| DisconnectedCallback (this : Element)
| AttributeChangedCallback (this : Element) (name : string) (oldValue newValue : option string)
| SetAttribute (this : Element) (name value : string)
| RemoveAttribute (this : Element) (name : string)
| Set_forElement (this : Element) (element : option Element)
| Set_inputElement (this : Element) (input : option Element)
| Set_hiddenInputElement (this : Element) (input : option Element)
| Set_src (this : Element) (url : string)
| Set_value (this : Element) (v : string)
| Set_dataValue (this : Element) (v : string)
| Set_open (this : Element) (v : bool)
| Set_fetchOnEmpty (this : Element) (v : bool)
| Mutation (d : Dom).

Definition call (c : Call) : M unit :=
  match c with
  | ConnectedCallback this => connectedCallback this
  | DisconnectedCallback this => disconnectedCallback this
  | AttributeChangedCallback this name o n => attributeChangedCallback this name o n
  | SetAttribute this name v => setAttribute this name v
  | RemoveAttribute this name => removeAttribute this name
  | Set_forElement this e => set_forElement this e
  | Set_inputElement this e => set_inputElement this e
  | Set_hiddenInputElement this e => set_hiddenInputElement this e
  | Set_src this u => set_src this u
  | Set_value this v => set_value this v
  | Set_dataValue this v => set_dataValue this v
  | Set_open this v => set_open this v
  | Set_fetchOnEmpty this v => set_fetchOnEmpty this v
  | Mutation d => set_dom d
  end.

(** The world after a call; an exception it raised has been reported. *)
Definition perform (w : World) (c : Call) : World := (call c w).2.

Definition run (cs : list Call) (w : World) : World := foldl perform w cs.

(** The engines alive after a history: constructed and not destroyed
    since. *)
Definition live_step (l : list Autocomplete) (e : Effect) : list Autocomplete :=
  match e with
  | New_Autocomplete a => l ++ [a]
  | Destroy u => filter (λ a, uid a ≠ u) l
  | _ => l
  end.

Definition live (tr : list Effect) : list Autocomplete := foldl live_step [] tr.

Definition live_for (this : Element) (tr : list Effect) : list Autocomplete :=
  filter (λ a, container a = this) (live tr).

(** The effects a computation adds to the trace. *)
Definition emitted (m : M unit) (w : World) : list Effect :=
  drop (length (trace w)) (trace (m w).2).

Definition is_SetValue (e : Effect) : bool :=
  match e with SetValue _ _ => true | _ => false end.

Definition is_DispatchEvent (e : Effect) : bool :=
  match e with DispatchEvent _ _ => true | _ => false end.

Definition count (p : Effect → bool) (tr : list Effect) : nat :=
  length (filter (λ e, p e = true) tr).

(** ** The request controller *)

(** A promise, by what it settles with. *)
Definition Promise (A : Type) : Type := Completion A.

(** The [Response] of the Fetch API: [text] is what reading the body
    settles with, and [ok] holds for a status from 200 to 299. *)
Record Response := {
  status : nat;
  text : Promise string;
}.

Definition ok (res : Response) : bool :=
  (200 <=? status res)%nat && (status res <=? 299)%nat.

(** [interface CSPTrustedHTMLToStringable] *)
Record CSPTrustedHTMLToStringable := {
  toString : string;
}.

(** [interface CSPTrustedTypesPolicy] *)
Record CSPTrustedTypesPolicy := {
  createHTML : string → Response → Completion CSPTrustedHTMLToStringable;
}.

(** The argument of [setCSPTrustedTypesPolicy] when it is not [null]. *)
Inductive PolicyArg :=
| APolicy (p : CSPTrustedTypesPolicy)
| APromise (p : Promise CSPTrustedTypesPolicy).

(** [Promise.resolve(policy)] *)
Definition Promise_resolve (policy : PolicyArg) : Promise CSPTrustedTypesPolicy :=
  match policy with
  | APolicy p => Normal p
  | APromise p => p
  end.

(** [string | CSPTrustedHTMLToStringable] *)
Inductive FetchValue :=
| Str (s : string)
| Trusted (t : CSPTrustedHTMLToStringable).

(** The text conversion both shapes offer. *)
Definition String_of (v : FetchValue) : string :=
  match v with
  | Str s => s
  | Trusted t => toString t
  end.

Definition Completion_map {A B} (f : A → B) (c : Completion A) : Completion B :=
  match c with
  | Normal a => Normal (f a)
  | Throw e => Throw e
  end.

(** The promise [fetchResult] returns: settled, or suspended at one of the
    [await]s of the body with the rest of the body as continuation.
    [ReadPolicy] is the read of the module-level variable, done in the
    turn that reaches it. *)
Inductive Task :=
| Settled (r : Completion FetchValue)
| AwaitFetch (k : Completion Response → Task)
| AwaitText (res : Response) (k : Completion string → Task)
| AwaitPolicy (p : Promise CSPTrustedTypesPolicy) (k : Completion CSPTrustedTypesPolicy → Task)
| ReadPolicy (k : option (Promise CSPTrustedTypesPolicy) → Task).

Inductive NetEffect :=
| Abort (c : nat)
| Fetch (this : Element) (url : string) (signal : nat) (headers : list (string * string)).

Record Net := {
  cspTrustedTypesPolicyPromise : option (Promise CSPTrustedTypesPolicy);
  requestController : Element → option nat;     (* #requestController *)
  controllers : nat;                            (* AbortControllers constructed so far *)
  promises : list Task;                         (* what fetchResult returned, in order *)
  log : list NetEffect;
}.

Definition Net_init : Net :=
  {| cspTrustedTypesPolicyPromise := None; requestController := λ _, None;
     controllers := 0; promises := []; log := [] |}.

(** [static setCSPTrustedTypesPolicy(policy)] *)
Definition setCSPTrustedTypesPolicy (policy : option PolicyArg) (n : Net) : Net :=
  {| cspTrustedTypesPolicyPromise :=
       match policy with
       | None => None
       | Some p => Some (Promise_resolve p)
       end;
     requestController := requestController n; controllers := controllers n;
     promises := promises n; log := log n |}.

(** [fetchResult], from the first [await] on: the body that runs once the
    promise of [fetch] has settled. *)
Definition fetchResult_resumed (r : Completion Response) : Task :=
  match r with
  | Throw e => Settled (Throw e)
  | Normal res =>
      if negb (ok res) then
        AwaitText res (λ t,
          match t with
          | Normal s => Settled (Throw (Error s))
          | Throw e => Settled (Throw e)
          end)
      else
        ReadPolicy (λ promise,
          match promise with
          | Some promise =>
              AwaitPolicy promise (λ p,
                match p with
                | Throw e => Settled (Throw e)
                | Normal cspTrustedTypesPolicy =>
                    AwaitText res (λ t,
                      match t with
                      | Throw e => Settled (Throw e)
                      | Normal s =>
                          Settled (Completion_map Trusted (createHTML cspTrustedTypesPolicy s res))
                      end)
                end)
          | None => AwaitText res (λ t, Settled (Completion_map Str t))
          end)
  end.

(** [fetchResult(url)], up to the first [await]: the previous controller
    is aborted, a new one takes its place, [fetch] is called, and the
    promise of the call is returned suspended. *)
Definition fetchResult (this : Element) (url : string) (n : Net) : Net :=
  let aborted :=
    match requestController n this with
    | Some c => [Abort c]
    | None => []
    end in
  let signal := controllers n in
  {| cspTrustedTypesPolicyPromise := cspTrustedTypesPolicyPromise n;
     requestController := λ e, if decide (e = this) then Some signal else requestController n e;
     controllers := S (controllers n);
     promises := promises n ++ [AwaitFetch fetchResult_resumed];
     log := log n ++ aborted
              ++ [Fetch this url signal [("Accept", "text/fragment+html")]] |}.

(** Run a resumed body up to its next [await]. *)
Fixpoint advance (n : Net) (t : Task) : Task :=
  match t with
  | ReadPolicy k => advance n (k (cspTrustedTypesPolicyPromise n))
  | _ => t
  end.

Definition set_promise (i : nat) (t : Task) (n : Net) : Net :=
  {| cspTrustedTypesPolicyPromise := cspTrustedTypesPolicyPromise n;
     requestController := requestController n; controllers := controllers n;
     promises := <[i := advance n t]> (promises n); log := log n |}.

(** One turn of the event loop, as far as the controller is concerned. *)
Inductive Turn :=
| Call_fetchResult (this : Element) (url : string)
| Call_setCSPTrustedTypesPolicy (policy : option PolicyArg)
| Fetch_settles (promise : nat) (r : Completion Response)
| Resume (promise : nat).

Definition turn (n : Net) (t : Turn) : Net :=
  match t with
  | Call_fetchResult this url => fetchResult this url n
  | Call_setCSPTrustedTypesPolicy policy => setCSPTrustedTypesPolicy policy n
  | Fetch_settles i r =>
      match promises n !! i with
      | Some (AwaitFetch k) => set_promise i (k r) n
      | _ => n
      end
  | Resume i =>
      match promises n !! i with
      | Some (AwaitText res k) => set_promise i (k (text res)) n
      | Some (AwaitPolicy p k) => set_promise i (k p) n
      | _ => n
      end
  end.

Definition turns (ts : list Turn) (n : Net) : Net := foldl turn n ts.

(** The requests that are current after a history: started, and their
    signal not aborted since. *)
Definition current_step (l : list (Element * nat)) (e : NetEffect) : list (Element * nat) :=
  match e with
  | Fetch this _ signal _ => l ++ [(this, signal)]
  | Abort c => filter (λ r, r.2 ≠ c) l
  end.

Definition current (tr : list NetEffect) : list (Element * nat) := foldl current_step [] tr.

Definition current_for (this : Element) (tr : list NetEffect) : list (Element * nat) :=
  filter (λ r, r.1 = this) (current tr).

(** Lower-case ASCII letters to upper case: the policy of the example. *)
Definition upper_ascii (c : Ascii.ascii) : Ascii.ascii :=
  let n := Ascii.nat_of_ascii c in
  if (97 <=? n)%nat && (n <=? 122)%nat then Ascii.ascii_of_nat (n - 32) else c.

Fixpoint upper (s : string) : string :=
  match s with
  | EmptyString => EmptyString
  | String c s' => String (upper_ascii c) (upper s')
  end.

Definition upper_policy : CSPTrustedTypesPolicy :=
  {| createHTML := λ s _, Normal {| toString := upper s |} |}.

(** ** Vocabulary of the statements *)

(** No host has two live engines after [tr]; nor at any earlier point. *)
Definition Bounded (tr : list Effect) : Prop :=
  ∀ this, length (live_for this tr) ≤ 1.

Definition Safe (tr : list Effect) : Prop :=
  ∀ p, p `prefix_of` tr → Bounded p.

(** Every live engine is the one the table holds for its host. *)
Definition Coherent (s : gmap Element Autocomplete) (tr : list Effect) : Prop :=
  ∀ a, a ∈ live tr → s !! container a = Some a.

Definition Inv (w : World) : Prop :=
  Coherent (state w) (trace w) ∧ Safe (trace w).

(** The constructor call, the one effect that adds a live engine. *)
Definition is_New (e : Effect) : Prop :=
  match e with New_Autocomplete _ => True | _ => False end.

(** What [state.get(this)?.destroy()] adds to the trace. *)
Definition destroyed (this : Element) (w : World) : list Effect :=
  match state w !! this with
  | Some a => [Destroy (uid a)]
  | None => []
  end.

(** The engine [#reattachState()] constructs in [w], if the bindings
    resolve. *)
Definition constructed (this : Element) (w : World) : option Autocomplete :=
  match forElement this w, inputElement this w with
  | Some forEl, Some inputEl =>
      Some {| uid := allocated w; container := this; input := inputEl;
              hiddenInput := hiddenInputElement this w; results := forEl;
              autoselectEnabled :=
                bool_decide (getAttribute this "data-autoselect" w = Some "true") |}
  | _, _ => None
  end.

(** The computation [m] keeps the invariant [I]. *)
Definition preserves (I : World → Prop) {A} (m : M A) : Prop :=
  ∀ w, I w → I (m w).2.

(** The engines constructed along a trace. *)
Definition constructions (tr : list Effect) : list Autocomplete :=
  omap (λ e, match e with New_Autocomplete a => Some a | _ => None end) tr.

(** Identities are handed out in order, each once. *)
Definition Fresh (w : World) : Prop :=
  Forall (λ a, uid a < allocated w) (constructions (trace w))
  ∧ NoDup (uid <$> constructions (trace w)).

(** A page with one host, element 0, whose [for] attribute names the
    element [target] and whose subtree holds the input [inputEl]. *)
Definition page (target inputEl : option Element) : Dom :=
  {| isConnected := λ _, true;
     attributes := λ e, if decide (e = 0) then {["for" := "list"]} else ∅;
     getRootNode := λ _, Document 0;
     getElementById := λ _ id, if String.eqb id "list" then target else None;
     querySelector := λ e sel,
       if decide (e = 0) then (if String.eqb sel "input" then inputEl else None) else None |}.

Definition engine (u : nat) (inputEl forEl : Element) : Autocomplete :=
  {| uid := u; container := 0; input := inputEl; hiddenInput := None;
     results := forEl; autoselectEnabled := false |}.

Definition change_event (this inputEl : Element) : Effect :=
  DispatchEvent this
    {| type := "auto-complete-change"; bubbles := true; relatedTarget := inputEl |}.

(** The rebind check of [attributeChangedCallback]. *)
Definition rebind (this : Element) (w : World) : bool :=
  strict_ne (forElement this w) (results <$> state w !! this)
  || strict_ne (inputElement this w) (input <$> state w !! this).

(** What the rebind check adds to the trace. *)
Definition rebuilt (this : Element) (w : World) : list Effect :=
  if rebind this w
  then destroyed this w
         ++ match constructed this w with Some a => [New_Autocomplete a] | None => [] end
  else [].

(** The command the [switch] issues, to the engine [a]. *)
Definition command (this : Element) (name : string) (newValue : option string)
    (a : Autocomplete) : list Effect :=
  if String.eqb name "open" then
    [match newValue with None => Close (uid a) | Some _ => Open (uid a) end]
  else if String.eqb name "data-value" then
    match hiddenInput a with Some h => [SetValue h newValue] | None => [] end
  else if String.eqb name "value" then
    match newValue with Some v => [SetValue (input a) (Some v)] | None => [] end
      ++ [change_event this (input a)]
  else [].

(** The world once the attributes of [this] have been changed by [f]. *)
Definition with_attributes (this : Element)
    (f : gmap string string → gmap string string) (w : World) : World :=
  {| dom := update_attributes (dom w) this f; state := state w; priv := priv w;
     allocated := allocated w; trace := trace w |}.

(** The promise a turn resumes, if any. *)
Definition target (t : Turn) : option nat :=
  match t with
  | Fetch_settles i _ | Resume i => Some i
  | _ => None
  end.

(** The same vocabulary for requests. *)
Definition NBounded (tr : list NetEffect) : Prop :=
  ∀ this, length (current_for this tr) ≤ 1.

Definition NSafe (tr : list NetEffect) : Prop :=
  ∀ p, p `prefix_of` tr → NBounded p.

(** Every current request carries the signal of its host's controller. *)
Definition NCoherent (rc : Element → option nat) (tr : list NetEffect) : Prop :=
  ∀ r, r ∈ current tr → rc r.1 = Some r.2.

Definition NInv (n : Net) : Prop :=
  NCoherent (requestController n) (log n) ∧ NSafe (log n).

(** What [this.#requestController?.abort()] adds to the log. *)
Definition aborted (this : Element) (n : Net) : list NetEffect :=
  match requestController n this with
  | Some c => [Abort c]
  | None => []
  end.

Definition Accept : list (string * string) := [("Accept", "text/fragment+html")].

(** The signals of the requests started along a log. *)
Definition signals (tr : list NetEffect) : list nat :=
  omap (λ e, match e with Fetch _ _ c _ => Some c | Abort _ => None end) tr.

(** Controllers are numbered in order, each once. *)
Definition NFresh (n : Net) : Prop :=
  Forall (λ c, c < controllers n) (signals (log n)) ∧ NoDup (signals (log n)).

(** What a call settles with on a success response: decided by the
    policy variable as it is in the turn in which [fetch] settles. *)
Definition success_result (policy : option (Promise CSPTrustedTypesPolicy))
    (res : Response) (s : string) : Completion FetchValue :=
  match policy with
  | Some (Normal p) => Completion_map Trusted (createHTML p s res)
  | Some (Throw e) => Throw e
  | None => Normal (Str s)
  end.

(** The text conversion of the value a promise is fulfilled with. *)
Definition text_conversion (t : Task) : option string :=
  match t with
  | Settled (Normal v) => Some (String_of v)
  | _ => None
  end.

Definition identity_policy : CSPTrustedTypesPolicy :=
  {| createHTML := λ s _, Normal {| toString := s |} |}.

(** The host a call is made on; a change of the document has none. *)
Definition host_of (c : Call) : option Element :=
  match c with
  | ConnectedCallback this | DisconnectedCallback this
  | AttributeChangedCallback this _ _ _ | SetAttribute this _ _
  | RemoveAttribute this _ | Set_forElement this _ | Set_inputElement this _
  | Set_hiddenInputElement this _ | Set_src this _ | Set_value this _
  | Set_dataValue this _ | Set_open this _ | Set_fetchOnEmpty this _ => Some this
  | Mutation _ => None
  end.

(** The calls that run [#reattachState()] whatever the table holds; the
    others reach it only through the rebind check, which needs a table
    entry. *)
Definition reattaches (c : Call) : bool :=
  match c with
  | ConnectedCallback _ | Set_inputElement _ _ | Set_hiddenInputElement _ _ => true
  | _ => false
  end.

(** A page like [page (Some 1) (Some 2)] with a second results container,
    element 5, under the id ["other"]. *)
Definition two_lists : Dom :=
  {| isConnected := λ _, true;
     attributes := λ e, if decide (e = 0) then {["for" := "list"]} else ∅;
     getRootNode := λ _, Document 0;
     getElementById := λ _ id,
       if String.eqb id "list" then Some 1
       else if String.eqb id "other" then Some 5 else None;
     querySelector := λ e sel,
       if decide (e = 0) then (if String.eqb sel "input" then Some 2 else None) else None |}.

(** Every entry of the table is an engine constructed for its key. *)
Definition Keyed (w : World) : Prop :=
  ∀ h a, state w !! h = Some a → container a = h ∧ a ∈ constructions (trace w).

Definition Good (w : World) : Prop := Inv w ∧ Fresh w ∧ Keyed w.

(** The calls the [switch] of [attributeChangedCallback] makes. *)
Definition is_command (e : Effect) : Prop :=
  match e with
  | Open _ | Close _ | SetValue _ _ | DispatchEvent _ _ => True
  | _ => False
  end.

(** The host [other] has in [w] the table entry and the live engines it
    had in [w0]. *)
Definition Untouched (other : Element) (w0 w : World) : Prop :=
  state w !! other = state w0 !! other
  ∧ live_for other (trace w) = live_for other (trace w0).

(** A page with two hosts, elements 0 and 10, each with an input of its
    own (2 and 12), sharing the results container 1. *)
Definition two_hosts : Dom :=
  {| isConnected := λ _, true;
     attributes := λ e,
       if decide (e = 0) then {["for" := "list"]}
       else if decide (e = 10) then {["for" := "list"]} else ∅;
     getRootNode := λ _, Document 0;
     getElementById := λ _ id, if String.eqb id "list" then Some 1 else None;
     querySelector := λ e sel,
       if String.eqb sel "input"
       then (if decide (e = 0) then Some 2 else if decide (e = 10) then Some 12 else None)
       else None |}.

(** Controllers are numbered below the counter, and no two hosts hold
    the same one. *)
Definition NKeyed (n : Net) : Prop :=
  (∀ h c, requestController n h = Some c → c < controllers n)
  ∧ (∀ h1 h2 c, requestController n h1 = Some c → requestController n h2 = Some c →
     h1 = h2).

(** What a call settles with on a 2xx response, whatever reading the body
    gives: decided by the policy variable as it is in the turn in which
    [fetch] settles. *)
Definition ok_result (policy : option (Promise CSPTrustedTypesPolicy))
    (res : Response) : Completion FetchValue :=
  match policy with
  | Some (Normal p) =>
      match text res with
      | Normal s => Completion_map Trusted (createHTML p s res)
      | Throw e => Throw e
      end
  | Some (Throw e) => Throw e
  | None => Completion_map Str (text res)
  end.

(** * Properties *)

(** ** The property accessors *)

Lemma or_string_default (v : option string) : or_string v "" = default "" v.
Proof.
  destruct v as [s|]; [|reflexivity].
  unfold or_string, truthy. destruct (String.eqb_spec s ""); simpl; congruence.
Qed.

(** C10: the [value], [dataValue] and [src] getters return the attribute's
    string when the attribute is present and the empty string, never
    [null], when it is absent. *)
Theorem getters_default_to_empty_string (this : Element) (w : World) :
  value this w = default "" (getAttribute this "value" w)
  ∧ dataValue this w = default "" (getAttribute this "data-value" w)
  ∧ src this w = default "" (getAttribute this "src" w).
Proof.
  unfold value, dataValue, src. by rewrite !or_string_default.
Qed.

(** ** Engines alive along a trace *)

Lemma live_snoc tr e : live (tr ++ [e]) = live_step (live tr) e.
Proof. unfold live. by rewrite foldl_snoc. Qed.

Lemma live_for_snoc_New this tr a :
  live_for this (tr ++ [New_Autocomplete a]) =
  live_for this tr ++ (if decide (container a = this) then [a] else []).
Proof.
  unfold live_for. rewrite live_snoc. simpl. by rewrite filter_app.
Qed.

Lemma live_snoc_subset tr e a :
  ¬ is_New e → a ∈ live (tr ++ [e]) → a ∈ live tr.
Proof.
  rewrite live_snoc. destruct e; simpl; try tauto.
  intros _ [_ ?]%list_elem_of_filter. done.
Qed.

Lemma length_filter_filter {A} (P Q : A → Prop)
    `{!∀ x, Decision (P x)} `{!∀ x, Decision (Q x)} (l : list A) :
  length (filter P (filter Q l)) ≤ length (filter P l).
Proof.
  induction l as [|x l IH]; [done|].
  rewrite !filter_cons. destruct (decide (Q x)), (decide (P x));
    rewrite ?filter_cons; repeat case_decide; simpl; try tauto; lia.
Qed.

Lemma live_for_snoc_length this tr e :
  ¬ is_New e → length (live_for this (tr ++ [e])) ≤ length (live_for this tr).
Proof.
  unfold live_for. rewrite live_snoc. destruct e; simpl; try tauto; try lia.
  intros _. apply length_filter_filter.
Qed.

Lemma prefix_snoc_cases {A} (p tr : list A) (e : A) :
  p `prefix_of` tr ++ [e] → p = tr ++ [e] ∨ p `prefix_of` tr.
Proof.
  intros [k Hk]. destruct k as [|x k _] using rev_ind.
  - left. by rewrite app_nil_r in Hk.
  - right. rewrite app_assoc in Hk. apply app_inj_tail in Hk as [-> _].
    by exists k.
Qed.

Lemma Safe_nil : Safe [].
Proof.
  intros p ->%prefix_nil_inv this. unfold live_for, live. simpl. lia.
Qed.

Lemma Safe_Bounded tr : Safe tr → Bounded tr.
Proof. intros H. by apply H. Qed.

Lemma Safe_snoc tr e : Safe tr → Bounded (tr ++ [e]) → Safe (tr ++ [e]).
Proof.
  intros Hs Hb p [->|Hp]%prefix_snoc_cases; [done | by apply Hs].
Qed.

Lemma Safe_snoc_other tr e : ¬ is_New e → Safe tr → Safe (tr ++ [e]).
Proof.
  intros He Hs. apply Safe_snoc; [done|]. intros this.
  etrans; [by apply live_for_snoc_length|]. by apply Safe_Bounded.
Qed.

Lemma Coherent_snoc_other s tr e :
  ¬ is_New e → Coherent s tr → Coherent s (tr ++ [e]).
Proof. intros He Hc a Ha. apply Hc. by eapply live_snoc_subset. Qed.

(** After [state.get(this)?.destroy()] no engine of the host is alive. *)
Lemma destroy_current_none_live this s tr :
  Coherent s tr →
  live_for this (tr ++ match s !! this with Some a => [Destroy (uid a)] | None => [] end) = [].
Proof.
  intros Hc. apply elem_of_nil_inv. intros x. unfold live_for.
  rewrite list_elem_of_filter. intros [Hx Hin].
  destruct (s !! this) as [a|] eqn:Hs.
  - rewrite live_snoc in Hin. simpl in Hin.
    apply list_elem_of_filter in Hin as [Hne Hin].
    apply Hc in Hin. rewrite Hx, Hs in Hin. congruence.
  - rewrite app_nil_r in Hin. apply Hc in Hin. congruence.
Qed.

Lemma Coherent_destroy_current this s tr :
  Coherent s tr →
  Coherent s (tr ++ match s !! this with Some a => [Destroy (uid a)] | None => [] end).
Proof.
  intros Hc. destruct (s !! this); [|by rewrite app_nil_r].
  apply Coherent_snoc_other; [simpl; tauto | done].
Qed.

Lemma Safe_destroy_current this (s : gmap Element Autocomplete) tr :
  Safe tr →
  Safe (tr ++ match s !! this with Some a => [Destroy (uid a)] | None => [] end).
Proof.
  intros Hs. destruct (s !! this); [|by rewrite app_nil_r].
  apply Safe_snoc_other; [simpl; tauto | done].
Qed.

Lemma Safe_construct this tr a :
  container a = this → live_for this tr = [] → Safe tr →
  Safe (tr ++ [New_Autocomplete a]).
Proof.
  intros Ha Hnone Hs. apply Safe_snoc; [done|]. intros h.
  rewrite live_for_snoc_New. rewrite length_app.
  destruct (decide (container a = h)) as [<-|]; simpl.
  - rewrite Ha, Hnone. simpl. lia.
  - pose proof (Safe_Bounded _ Hs h). lia.
Qed.

Lemma Coherent_construct this s tr a :
  container a = this → live_for this tr = [] → Coherent s tr →
  Coherent (<[this := a]> s) (tr ++ [New_Autocomplete a]).
Proof.
  intros Ha Hnone Hc x. rewrite live_snoc. simpl.
  rewrite elem_of_app, list_elem_of_singleton. intros [Hx| ->].
  - assert (container x ≠ this) as Hne.
    { intros Heq. eapply (filter_nil_not_elem_of _ _ x Hnone); done. }
    rewrite lookup_insert_ne by done. by apply Hc.
  - rewrite Ha. apply lookup_insert_eq.
Qed.

Lemma Coherent_delete this s tr :
  live_for this tr = [] → Coherent s tr → Coherent (delete this s) tr.
Proof.
  intros Hnone Hc x Hx.
  assert (container x ≠ this) as Hne.
  { intros Heq. eapply (filter_nil_not_elem_of _ _ x Hnone); done. }
  rewrite lookup_delete_ne by done. by apply Hc.
Qed.

(** ** [#reattachState()] in one step *)

Ltac run_M :=
  unfold setAttribute_unobserved, reaction, emit, set_state, set_dom, set_priv,
    new_Autocomplete, throw, gets, modify, ret, mbind, M_bind, mret, M_ret in *;
  simpl in *.

Lemma reattachState_spec this w :
  (reattachState this w).1 = Normal tt
  ∧ trace (reattachState this w).2 =
      trace w ++ destroyed this w
        ++ match constructed this w with Some a => [New_Autocomplete a] | None => [] end
  ∧ state (reattachState this w).2 =
      match constructed this w with Some a => <[this := a]> (state w) | None => state w end
  ∧ priv (reattachState this w).2 = priv w
  ∧ allocated (reattachState this w).2 =
      match constructed this w with Some _ => S (allocated w) | None => allocated w end.
Proof.
  unfold reattachState, destroyed, constructed. run_M.
  destruct (state w !! this) as [a|]; simpl;
    unfold forElement, inputElement, hiddenInputElement, getAttribute, connected; simpl;
    repeat match goal with
           | |- context [match ?x with _ => _ end] => destruct x eqn:?; simpl
           end;
    rewrite ?app_nil_r, <- ?app_assoc; simpl; auto.
Qed.

(** ** Invariants of histories *)

(** An invariant that ignores the document and the private fields, and is
    kept by the engine calls, by [#reattachState()] and by
    [disconnectedCallback()], is kept by everything that can happen to an
    element. *)
Section Preservation.
Variable I : World → Prop.

Hypothesis I_set_dom : ∀ d, preserves I (set_dom d).
Hypothesis I_set_priv : ∀ this f, preserves I (set_priv this f).
Hypothesis I_emit : ∀ e, ¬ is_New e → preserves I (emit e).
Hypothesis I_reattachState : ∀ this, preserves I (reattachState this).
Hypothesis I_disconnectedCallback : ∀ this, preserves I (disconnectedCallback this).

Lemma preserves_ret {A} (a : A) : preserves I (ret a).
Proof. by intros w. Qed.

Lemma preserves_mret {A} (a : A) : preserves I (mret a : M A).
Proof. by intros w. Qed.

Lemma preserves_throw {A} e : preserves I (throw e : M A).
Proof. by intros w. Qed.

Lemma preserves_gets {A} (f : World → A) : preserves I (gets f).
Proof. by intros w. Qed.

Lemma preserves_bind {A B} (m : M A) (k : A → M B) :
  preserves I m → (∀ a, preserves I (k a)) → preserves I (m ≫= k).
Proof.
  intros Hm Hk w Hw. specialize (Hm w Hw). unfold mbind, M_bind.
  destruct (m w) as [[a|e] w']; simpl in *; [by apply Hk | done].
Qed.

Lemma preserves_reaction (m : M unit) : preserves I m → preserves I (reaction m).
Proof. intros Hm w Hw. by apply Hm. Qed.

Ltac preserves_step :=
  match goal with
  | |- preserves _ (_ ≫= _) => apply preserves_bind; [|intros ?]
  | |- preserves _ (emit _) => apply I_emit; simpl; tauto
  | |- preserves _ (reaction _) => apply preserves_reaction
  | |- preserves _ (if ?b then _ else _) => destruct b
  | |- preserves _ (match ?x with _ => _ end) => destruct x
  | |- preserves _ _ =>
      first [ apply preserves_ret | apply preserves_mret | apply preserves_throw
            | apply preserves_gets | apply I_set_dom | apply I_set_priv
            | apply I_reattachState | apply I_disconnectedCallback ]
  end.

Lemma preserves_connectedCallback this : preserves I (connectedCallback this).
Proof. unfold connectedCallback. repeat preserves_step. Qed.

Lemma preserves_attributeChangedCallback this name o n :
  preserves I (attributeChangedCallback this name o n).
Proof. unfold attributeChangedCallback. repeat preserves_step. Qed.

Lemma preserves_setAttribute this name v : preserves I (setAttribute this name v).
Proof.
  unfold setAttribute. repeat preserves_step.
  apply preserves_attributeChangedCallback.
Qed.

Lemma preserves_removeAttribute this name : preserves I (removeAttribute this name).
Proof.
  unfold removeAttribute. repeat preserves_step.
  apply preserves_attributeChangedCallback.
Qed.

Lemma preserves_call c : preserves I (call c).
Proof.
  destruct c; simpl;
    unfold set_forElement, set_inputElement, set_hiddenInputElement, set_src,
      set_value, set_dataValue, set_open, set_fetchOnEmpty, toggleAttribute;
    repeat first [ apply preserves_connectedCallback
                 | apply preserves_attributeChangedCallback
                 | apply preserves_setAttribute
                 | apply preserves_removeAttribute
                 | preserves_step ].
Qed.

Lemma preserves_run cs w : I w → I (run cs w).
Proof.
  revert w. induction cs as [|c cs IH]; intros w Hw; [done|].
  simpl. apply IH. by apply preserves_call.
Qed.
End Preservation.

(** *** At most one live engine *)

Lemma Inv_emit e : ¬ is_New e → preserves Inv (emit e).
Proof.
  intros He w [Hc Hs]. split; simpl.
  - by apply Coherent_snoc_other.
  - by apply Safe_snoc_other.
Qed.

Lemma Inv_reattachState this : preserves Inv (reattachState this).
Proof.
  intros w [Hc Hs].
  destruct (reattachState_spec this w) as (_ & Htr & Hst & _).
  unfold Inv. rewrite Htr, Hst. unfold destroyed.
  pose proof (destroy_current_none_live this _ _ Hc) as Hnone.
  pose proof (Coherent_destroy_current this _ _ Hc) as Hc'.
  pose proof (Safe_destroy_current this (state w) _ Hs) as Hs'.
  destruct (constructed this w) as [a|] eqn:Ha.
  - assert (container a = this) as Hcont.
    { unfold constructed in Ha. repeat case_match; by simplify_eq. }
    rewrite app_assoc. split.
    + by apply Coherent_construct.
    + by eapply Safe_construct.
  - by rewrite app_nil_r.
Qed.

Lemma Inv_disconnectedCallback this : preserves Inv (disconnectedCallback this).
Proof.
  intros w [Hc Hs]. unfold disconnectedCallback. run_M.
  pose proof (destroy_current_none_live this _ _ Hc) as Hnone.
  pose proof (Coherent_destroy_current this _ _ Hc) as Hc'.
  pose proof (Safe_destroy_current this (state w) _ Hs) as Hs'.
  destruct (state w !! this) as [a|]; simpl; [|done].
  split; simpl; [by apply Coherent_delete | done].
Qed.

Lemma Inv_initial d : Inv (initial d).
Proof.
  split; simpl; [|apply Safe_nil].
  intros a Ha. unfold live in Ha. simpl in Ha. by apply elem_of_nil in Ha.
Qed.

Lemma Inv_run cs w : Inv w → Inv (run cs w).
Proof.
  apply preserves_run.
  - by intros d w'.
  - by intros this f w'.
  - apply Inv_emit.
  - apply Inv_reattachState.
  - apply Inv_disconnectedCallback.
Qed.

(** *** Engines have identities of their own *)

Lemma constructions_snoc tr e :
  constructions (tr ++ [e]) =
  constructions tr ++ match e with New_Autocomplete a => [a] | _ => [] end.
Proof. unfold constructions. rewrite omap_app. by destruct e. Qed.

Lemma constructions_destroyed tr this w :
  constructions (tr ++ destroyed this w) = constructions tr.
Proof.
  unfold destroyed. destruct (state w !! this).
  - by rewrite constructions_snoc, app_nil_r.
  - by rewrite app_nil_r.
Qed.

Lemma Fresh_emit e : ¬ is_New e → preserves Fresh (emit e).
Proof.
  intros He w Hw. unfold Fresh in *. simpl. rewrite constructions_snoc.
  destruct e; simpl in *; try tauto; by rewrite app_nil_r.
Qed.

Lemma Fresh_reattachState this : preserves Fresh (reattachState this).
Proof.
  intros w [Hlt Hnd].
  destruct (reattachState_spec this w) as (_ & Htr & _ & _ & Hal).
  unfold Fresh. rewrite Htr, Hal, app_assoc.
  destruct (constructed this w) as [a|] eqn:Ha.
  - assert (uid a = allocated w) as Huid.
    { unfold constructed in Ha. repeat case_match; by simplify_eq. }
    rewrite constructions_snoc, constructions_destroyed. split.
    + apply Forall_app. split; [|apply Forall_singleton; lia].
      eapply Forall_impl; [done|]. simpl. lia.
    + rewrite fmap_app. apply NoDup_app. split; [done|]. split.
      * intros u Hu ->%list_elem_of_singleton.
        apply list_elem_of_fmap in Hu as (x & Hx & Hin).
        rewrite Forall_forall in Hlt. specialize (Hlt x Hin). lia.
      * apply NoDup_singleton.
  - by rewrite app_nil_r, constructions_destroyed.
Qed.

Lemma Fresh_disconnectedCallback this : preserves Fresh (disconnectedCallback this).
Proof.
  intros w Hw. unfold disconnectedCallback. run_M.
  destruct (state w !! this) as [a|]; simpl; [|done].
  unfold Fresh in *. simpl. by rewrite constructions_snoc, app_nil_r.
Qed.

(** No two engines constructed along a history share an identity, so a
    [Destroy] in the trace ends the life of one engine only. *)
Lemma engine_identities_distinct d cs :
  NoDup (uid <$> constructions (trace (run cs (initial d)))).
Proof.
  apply (preserves_run Fresh).
  - by intros d' w'.
  - by intros this f w'.
  - apply Fresh_emit.
  - apply Fresh_reattachState.
  - apply Fresh_disconnectedCallback.
  - split; simpl; [constructor | apply NoDup_nil_2].
Qed.

(** ** At most one live engine per host *)

Lemma emitted_reattachState this w :
  emitted (reattachState this) w =
  destroyed this w
    ++ match constructed this w with Some a => [New_Autocomplete a] | None => [] end.
Proof.
  unfold emitted. destruct (reattachState_spec this w) as (_ & -> & _).
  by rewrite drop_app_length.
Qed.

(** C1: along every history of connections, disconnections, attribute
    mutations, accessor calls and document changes, and at every point of
    it, callbacks half run included, a host has at most one engine that
    was constructed and not destroyed; [#reattachState()] first destroys
    the engine the table holds, which leaves the host without a live
    engine, and only then constructs. *)
Theorem at_most_one_live_engine (d : Dom) (cs : list Call) (this : Element) :
  (∀ p, p `prefix_of` trace (run cs (initial d)) → length (live_for this p) ≤ 1)
  ∧ emitted (reattachState this) (run cs (initial d)) =
      destroyed this (run cs (initial d))
        ++ match constructed this (run cs (initial d)) with
           | Some a => [New_Autocomplete a]
           | None => []
           end
  ∧ live_for this (trace (run cs (initial d)) ++ destroyed this (run cs (initial d))) = [].
Proof.
  destruct (Inv_run cs (initial d) (Inv_initial d)) as [Hc Hs].
  split; [|split].
  - intros p Hp. by apply Hs.
  - apply emitted_reattachState.
  - by apply destroy_current_none_live.
Qed.

Lemma at_most_one_live_engine_witness :
  live_for 0 (trace (run [ConnectedCallback 0; Mutation (page (Some 1) (Some 3));
                          Set_open 0 true] (initial (page (Some 1) (Some 2)))))
    = [engine 1 3 1]
  ∧ length (live_for 0 (trace (run [ConnectedCallback 0; Mutation (page (Some 1) (Some 3));
                          Set_open 0 true] (initial (page (Some 1) (Some 2)))))) ≤ 1.
Proof.
  split; [vm_compute; reflexivity|].
  apply (at_most_one_live_engine (page (Some 1) (Some 2))
           [ConnectedCallback 0; Mutation (page (Some 1) (Some 3)); Set_open 0 true] 0).
  reflexivity.
Defined.

(** ** The attribute reaction dispatcher *)

Lemma attributeChangedCallback_spec this name o n w a :
  o ≠ n → state w !! this = Some a →
  trace (attributeChangedCallback this name o n w).2 =
    trace w ++ rebuilt this w ++ command this name n a
  ∧ state (attributeChangedCallback this name o n w).2 =
      if rebind this w then state (reattachState this w).2 else state w.
Proof.
  intros Hne Ha. unfold attributeChangedCallback, rebuilt, command, change_event.
  rewrite bool_decide_eq_false_2 by done. run_M. rewrite Ha. fold (rebind this w).
  destruct (rebind this w).
  - destruct (reattachState_spec this w) as (Hr & Htr & _).
    destruct (reattachState this w) as [r w']. simpl in *. subst r. simpl.
    repeat case_match; simplify_eq/=; rewrite ?Htr, <- ?app_assoc, ?app_nil_r; done.
  - simpl. repeat case_match; simplify_eq/=; rewrite <- ?app_assoc, ?app_nil_r; done.
Qed.

(** C9: when the old value equals the new one, or when the table holds no
    engine for the host, [attributeChangedCallback] returns at once: the
    world it leaves is the world it found, so the trace gains no engine
    command and no change event, and the table and the host's fields are
    untouched. *)
Theorem no_op_suppression (this : Element) (name : string)
    (oldValue newValue : option string) (w : World) :
  oldValue = newValue ∨ state w !! this = None →
  attributeChangedCallback this name oldValue newValue w = (Normal tt, w).
Proof.
  intros H. unfold attributeChangedCallback.
  destruct (decide (oldValue = newValue)) as [Heq|Hne].
  - by rewrite bool_decide_eq_true_2.
  - rewrite bool_decide_eq_false_2 by done. destruct H as [?|Hnone]; [done|].
    run_M. by rewrite Hnone.
Qed.

Lemma no_op_suppression_witness :
  attributeChangedCallback 0 "open" (Some "") (Some "")
    (run [ConnectedCallback 0] (initial (page (Some 1) (Some 2))))
  = (Normal tt, run [ConnectedCallback 0] (initial (page (Some 1) (Some 2))))
  ∧ attributeChangedCallback 0 "value" None (Some "abc") (initial (page (Some 1) (Some 2)))
    = (Normal tt, initial (page (Some 1) (Some 2))).
Proof.
  split.
  - apply (no_op_suppression 0 "open" (Some "") (Some "")). left. reflexivity.
  - apply (no_op_suppression 0 "value" None (Some "abc")). right. reflexivity.
Defined.

Lemma rebuilt_no_SetValue this w : filter (λ e, is_SetValue e = true) (rebuilt this w) = [].
Proof.
  unfold rebuilt, destroyed. repeat case_match; reflexivity.
Qed.

Lemma rebuilt_no_DispatchEvent this w :
  filter (λ e, is_DispatchEvent e = true) (rebuilt this w) = [].
Proof.
  unfold rebuilt, destroyed. repeat case_match; reflexivity.
Qed.

Lemma emitted_attributeChangedCallback this name o n w a :
  o ≠ n → state w !! this = Some a →
  emitted (attributeChangedCallback this name o n) w =
  rebuilt this w ++ command this name n a.
Proof.
  intros Hne Ha. unfold emitted.
  destruct (attributeChangedCallback_spec this name o n w a Hne Ha) as [-> _].
  by rewrite drop_app_length.
Qed.

(** The table still holds an engine for the host after the callback. *)
Lemma attributeChangedCallback_keeps_entry this name o n w a :
  o ≠ n → state w !! this = Some a →
  is_Some (state (attributeChangedCallback this name o n w).2 !! this).
Proof.
  intros Hne Ha.
  destruct (attributeChangedCallback_spec this name o n w a Hne Ha) as [_ ->].
  destruct (rebind this w); [|by rewrite Ha].
  destruct (reattachState_spec this w) as (_ & _ & -> & _).
  destruct (constructed this w); [by rewrite lookup_insert_eq | by rewrite Ha].
Qed.

Lemma setAttribute_observed this name v w :
  name ∈ observedAttributes →
  (setAttribute this name v w).2 =
  (attributeChangedCallback this name (getAttribute this name w) (Some v)
     (with_attributes this (λ m, <[name := v]> m) w)).2.
Proof.
  intros Hobs. unfold setAttribute. run_M. by rewrite bool_decide_eq_true_2.
Qed.

Lemma removeAttribute_observed this name v w :
  name ∈ observedAttributes → getAttribute this name w = Some v →
  (removeAttribute this name w).2 =
  (attributeChangedCallback this name (Some v) None
     (with_attributes this (λ m, delete name m) w)).2.
Proof.
  intros Hobs Hv. unfold removeAttribute. run_M. rewrite Hv.
  by rewrite bool_decide_eq_true_2.
Qed.

Lemma reattachState_dom this w :
  dom (reattachState this w).2 =
  match constructed this w with
  | Some a => update_attributes (dom w) (results a) (λ m, <["role" := "listbox"]> m)
  | None => dom w
  end.
Proof.
  unfold reattachState, constructed. run_M.
  destruct (state w !! this) as [a|]; simpl;
    unfold forElement, inputElement, hiddenInputElement, getAttribute, connected; simpl;
    repeat case_match; simplify_eq/=; done.
Qed.

Lemma attributeChangedCallback_dom this name o n w :
  dom (attributeChangedCallback this name o n w).2 = dom w
  ∨ dom (attributeChangedCallback this name o n w).2 = dom (reattachState this w).2.
Proof.
  unfold attributeChangedCallback. case_bool_decide; [by left|]. run_M.
  destruct (state w !! this) as [a|]; [|by left]. fold (rebind this w).
  destruct (rebind this w).
  - right. destruct (reattachState_spec this w) as (Hr & _).
    destruct (reattachState this w) as [r w']. simpl in *. subst r. simpl.
    repeat case_match; simplify_eq/=; done.
  - left. simpl. repeat case_match; simplify_eq/=; done.
Qed.

(** The callback leaves every attribute but [role] as it was. *)
Lemma attributeChangedCallback_getAttribute this name o n w e attr :
  attr ≠ "role" →
  getAttribute e attr (attributeChangedCallback this name o n w).2 = getAttribute e attr w.
Proof.
  intros Hattr. unfold getAttribute.
  destruct (attributeChangedCallback_dom this name o n w) as [->| ->]; [done|].
  rewrite reattachState_dom. destruct (constructed this w); [|done]. simpl.
  case_decide; [|done]. by rewrite lookup_insert_ne.
Qed.

Lemma setAttribute_normal this name v w : (setAttribute this name v w).1 = Normal tt.
Proof. unfold setAttribute. run_M. by case_bool_decide. Qed.

Lemma value_observed : "value" ∈ observedAttributes.
Proof. unfold observedAttributes. set_solver. Qed.

(** The trace of a qualifying mutation of [value], as the code has it:
    the rebind check runs first (it writes nothing and notifies nobody),
    then the [switch] works on [a], the table entry read before the
    check: a non-null new value is written into [a]'s input, and one
    bubbling [auto-complete-change] event is dispatched on the host with
    that input as [relatedTarget].  When the check has just replaced [a],
    this is the input of a destroyed engine.  Setting [value] to ["abc"]
    and then removing it writes once and notifies twice in every case. *)
Theorem value_mutation_writes_then_notifies (this : Element) (w : World)
    (a : Autocomplete) (oldValue newValue : option string) :
  state w !! this = Some a → oldValue ≠ newValue →
  emitted (attributeChangedCallback this "value" oldValue newValue) w =
    rebuilt this w
      ++ match newValue with Some v => [SetValue (input a) (Some v)] | None => [] end
      ++ [DispatchEvent this {| type := "auto-complete-change"; bubbles := true;
                                 relatedTarget := input a |}]
  ∧ count is_SetValue (rebuilt this w) = 0
  ∧ count is_DispatchEvent (rebuilt this w) = 0
  ∧ (getAttribute this "value" w ≠ Some "abc" →
     filter (λ e, is_SetValue e = true)
       (emitted (setAttribute this "value" "abc";; removeAttribute this "value") w)
       = [SetValue (input a) (Some "abc")]
     ∧ count is_DispatchEvent
         (emitted (setAttribute this "value" "abc";; removeAttribute this "value") w) = 2).
Proof.
  intros Ha Hne. split; [|split; [|split]].
  - by rewrite (emitted_attributeChangedCallback _ _ _ _ _ a).
  - unfold count. by rewrite rebuilt_no_SetValue.
  - unfold count. by rewrite rebuilt_no_DispatchEvent.
  - intros Hold. unfold emitted, count, mbind, M_bind.
    pose proof (setAttribute_normal this "value" "abc" w) as Hn.
    pose proof (setAttribute_observed this "value" "abc" w value_observed) as Hw1.
    destruct (setAttribute this "value" "abc" w) as [r w1]. simpl in *. subst r.
    set (w0 := with_attributes this (λ m, <["value" := "abc"]> m) w) in *.
    assert (state w0 !! this = Some a) as Ha0 by done.
    destruct (attributeChangedCallback_spec this "value" _ (Some "abc") w0 a Hold Ha0)
      as [Htr1 _].
    destruct (attributeChangedCallback_keeps_entry this "value" _ (Some "abc") w0 a Hold Ha0)
      as [a1 Ha1].
    assert (getAttribute this "value" w1 = Some "abc") as Hv1.
    { rewrite Hw1, attributeChangedCallback_getAttribute by done.
      unfold getAttribute, w0. simpl. rewrite decide_True by done.
      apply lookup_insert_eq. }
    rewrite <- Hw1 in Htr1, Ha1.
    rewrite (removeAttribute_observed this "value" "abc" w1 value_observed Hv1).
    set (w2 := with_attributes this (λ m, delete "value" m) w1) in *.
    assert (state w2 !! this = Some a1) as Ha2 by done.
    assert (Some "abc" ≠ (None : option string)) as Hne2 by done.
    destruct (attributeChangedCallback_spec this "value" _ None w2 a1 Hne2 Ha2)
      as [-> _].
    change (trace w2) with (trace w1). rewrite Htr1.
    change (trace w0) with (trace w). rewrite <- !app_assoc, drop_app_length.
    unfold command, change_event. simpl.
    rewrite !filter_app, !filter_cons, !filter_app, !rebuilt_no_SetValue,
      !rebuilt_no_DispatchEvent.
    done.
Qed.

Lemma value_mutation_writes_then_notifies_witness :
  state (run [ConnectedCallback 0] (initial (page (Some 1) (Some 2)))) !! 0
    = Some (engine 0 2 1)
  ∧ emitted (attributeChangedCallback 0 "value" None (Some "abc"))
      (run [ConnectedCallback 0] (initial (page (Some 1) (Some 2))))
    = [SetValue 2 (Some "abc"); change_event 0 2].
Proof.
  split; [vm_compute; reflexivity|].
  destruct (value_mutation_writes_then_notifies 0
              (run [ConnectedCallback 0] (initial (page (Some 1) (Some 2))))
              (engine 0 2 1) None (Some "abc")) as [H _].
  - vm_compute; reflexivity.
  - discriminate.
  - rewrite H. vm_compute; reflexivity.
Defined.

(** C2 on the code: the host has the engine 0 on input 2; the input is
    replaced by element 3; then [open] is set.  The rebind check destroys
    engine 0 and constructs engine 1 on the new input, and the [switch]
    then calls [open()] on engine 0, the destroyed one, through the
    reference read before the rebuild.  The engine the table now holds
    receives nothing. *)
Theorem rebind_then_dispatch_reaches_destroyed_engine :
  trace (run [ConnectedCallback 0; Mutation (page (Some 1) (Some 3)); SetAttribute 0 "open" ""]
           (initial (page (Some 1) (Some 2))))
  = [New_Autocomplete (engine 0 2 1); Destroy 0; New_Autocomplete (engine 1 3 1); Open 0]
  ∧ state (run [ConnectedCallback 0; Mutation (page (Some 1) (Some 3)); SetAttribute 0 "open" ""]
             (initial (page (Some 1) (Some 2)))) !! 0
    = Some (engine 1 3 1)
  ∧ trace (run [ConnectedCallback 0; Mutation (page (Some 1) (Some 3)); SetAttribute 0 "value" "abc"]
             (initial (page (Some 1) (Some 2))))
    = [New_Autocomplete (engine 0 2 1); Destroy 0; New_Autocomplete (engine 1 3 1);
       SetValue 2 (Some "abc"); change_event 0 2].
Proof. vm_compute. done. Qed.

(** C3 on the code: the host has the engine 0; the [for] target leaves the
    document; the host is connected again.  [#reattachState()] destroys
    engine 0 and returns at the missing target without
    [state.delete(this)], which [disconnectedCallback] does: the table
    still holds the destroyed engine.  A later change of [value] finds it
    there, destroys it once more, writes into its input and dispatches
    the change event. *)
Theorem reattach_leaves_destroyed_engine_in_table :
  state (run [ConnectedCallback 0; Mutation (page None (Some 2)); ConnectedCallback 0]
           (initial (page (Some 1) (Some 2)))) !! 0
  = Some (engine 0 2 1)
  ∧ trace (run [ConnectedCallback 0; Mutation (page None (Some 2)); ConnectedCallback 0]
             (initial (page (Some 1) (Some 2))))
    = [New_Autocomplete (engine 0 2 1); Destroy 0]
  ∧ state (run [ConnectedCallback 0; Mutation (page None (Some 2)); DisconnectedCallback 0]
             (initial (page (Some 1) (Some 2)))) !! 0
    = None
  ∧ trace (run [ConnectedCallback 0; Mutation (page None (Some 2)); ConnectedCallback 0;
                SetAttribute 0 "value" "abc"]
             (initial (page (Some 1) (Some 2))))
    = [New_Autocomplete (engine 0 2 1); Destroy 0; Destroy 0;
       SetValue 2 (Some "abc"); change_event 0 2].
Proof. vm_compute. done. Qed.

(** C8 on the code: the host has the engine 0 on input 2; the input is
    replaced by element 3; then [value] is set to ["abc"] and removed
    again.  The first callback rebuilds the engine on input 3 and then
    writes ["abc"] into input 2, the input of the engine it has just
    destroyed, and dispatches the change event with input 2 as
    [relatedTarget]: the visible input of the host's engine, element 3,
    is never written.  The counts are as the claim has them (one write,
    two events); the target of the write and of the first event is not.
    The defect is the one of C2, the reference read before the rebuild. *)
Theorem value_write_reaches_destroyed_engine_input :
  trace (run [ConnectedCallback 0; Mutation (page (Some 1) (Some 3));
              SetAttribute 0 "value" "abc"; RemoveAttribute 0 "value"]
           (initial (page (Some 1) (Some 2))))
  = [New_Autocomplete (engine 0 2 1); Destroy 0; New_Autocomplete (engine 1 3 1);
     SetValue 2 (Some "abc"); change_event 0 2; change_event 0 3]
  ∧ live_for 0 (trace (run [ConnectedCallback 0; Mutation (page (Some 1) (Some 3));
                            SetAttribute 0 "value" "abc"]
                         (initial (page (Some 1) (Some 2)))))
    = [engine 1 3 1]
  ∧ inputElement 0 (run [ConnectedCallback 0; Mutation (page (Some 1) (Some 3));
                         SetAttribute 0 "value" "abc"]
                      (initial (page (Some 1) (Some 2))))
    = Some 3.
Proof. vm_compute. done. Qed.

(** ** The request controller *)

Lemma current_snoc tr e : current (tr ++ [e]) = current_step (current tr) e.
Proof. unfold current. by rewrite foldl_snoc. Qed.

Lemma NSafe_nil : NSafe [].
Proof. intros p ->%prefix_nil_inv this. unfold current_for, current. simpl. lia. Qed.

Lemma NSafe_snoc tr e : NSafe tr → NBounded (tr ++ [e]) → NSafe (tr ++ [e]).
Proof.
  intros Hs Hb p [->|Hp]%prefix_snoc_cases; [done | by apply Hs].
Qed.

Lemma NSafe_aborted this n : NSafe (log n) → NSafe (log n ++ aborted this n).
Proof.
  intros Hs. unfold aborted. destruct (requestController n this) as [c|];
    [|by rewrite app_nil_r].
  apply NSafe_snoc; [done|]. intros h. unfold current_for.
  rewrite current_snoc. simpl. etrans; [apply length_filter_filter|].
  by apply Hs.
Qed.

Lemma NCoherent_aborted this n :
  NCoherent (requestController n) (log n) →
  NCoherent (requestController n) (log n ++ aborted this n).
Proof.
  intros Hc. unfold aborted. destruct (requestController n this) as [c|];
    [|by rewrite app_nil_r].
  intros r. rewrite current_snoc. simpl. intros [_ ?]%list_elem_of_filter.
  by apply Hc.
Qed.

(** Once the previous controller is aborted the host has no current
    request. *)
Lemma aborted_none_current this n :
  NCoherent (requestController n) (log n) →
  current_for this (log n ++ aborted this n) = [].
Proof.
  intros Hc. apply elem_of_nil_inv. intros r. unfold current_for, aborted.
  rewrite list_elem_of_filter. intros [Hr Hin].
  destruct (requestController n this) as [c|] eqn:Hrc.
  - rewrite current_snoc in Hin. simpl in Hin.
    apply list_elem_of_filter in Hin as [Hne Hin].
    apply Hc in Hin. rewrite Hr, Hrc in Hin. congruence.
  - rewrite app_nil_r in Hin. apply Hc in Hin. congruence.
Qed.

Lemma log_fetchResult this url n :
  log (fetchResult this url n) =
  log n ++ aborted this n ++ [Fetch this url (controllers n) Accept].
Proof. reflexivity. Qed.

Lemma NInv_fetchResult this url n : NInv n → NInv (fetchResult this url n).
Proof.
  intros [Hc Hs]. unfold NInv. rewrite log_fetchResult, app_assoc.
  pose proof (aborted_none_current this n Hc) as Hnone.
  pose proof (NCoherent_aborted this n Hc) as Hc'.
  pose proof (NSafe_aborted this n Hs) as Hs'.
  split.
  - intros r. rewrite current_snoc. simpl.
    rewrite elem_of_app, list_elem_of_singleton. intros [Hr| ->]; simpl.
    + assert (r.1 ≠ this) as Hne.
      { intros Heq. eapply (filter_nil_not_elem_of _ _ r Hnone); done. }
      rewrite decide_False by done. by apply Hc'.
    + by rewrite decide_True.
  - apply NSafe_snoc; [done|]. intros h. unfold current_for.
    rewrite current_snoc. simpl. rewrite filter_app, length_app.
    destruct (decide (h = this)) as [->|Hne].
    + fold (current_for this (log n ++ aborted this n)). rewrite Hnone.
      rewrite filter_cons. simpl. case_decide; simpl; lia.
    + rewrite filter_cons. simpl. rewrite decide_False by done. simpl.
      pose proof (Hs' _ (reflexivity _) h) as Hb. unfold current_for in Hb. lia.
Qed.

(** Only [fetchResult] touches the controllers and the log. *)
Lemma turn_frame n t :
  (∀ this url, t ≠ Call_fetchResult this url) →
  log (turn n t) = log n
  ∧ requestController (turn n t) = requestController n
  ∧ controllers (turn n t) = controllers n.
Proof.
  intros Ht. destruct t; simpl; [by edestruct Ht|done|..];
    repeat case_match; done.
Qed.

Lemma NInv_turn n t : NInv n → NInv (turn n t).
Proof.
  intros Hn. destruct t as [this url| | |].
  - by apply NInv_fetchResult.
  - done.
  - destruct (turn_frame n (Fetch_settles promise r)) as (Hl & Hr & _); [done|].
    unfold NInv. by rewrite Hl, Hr.
  - destruct (turn_frame n (Resume promise)) as (Hl & Hr & _); [done|].
    unfold NInv. by rewrite Hl, Hr.
Qed.

Lemma NInv_turns ts n : NInv n → NInv (turns ts n).
Proof.
  revert n. induction ts as [|t ts IH]; intros n Hn; [done|].
  simpl. apply IH. by apply NInv_turn.
Qed.

Lemma NInv_init : NInv Net_init.
Proof.
  split; simpl; [|apply NSafe_nil].
  intros r Hr. unfold current in Hr. simpl in Hr. by apply elem_of_nil in Hr.
Qed.

Lemma turns_frame ts n :
  Forall (λ t, ∀ this url, t ≠ Call_fetchResult this url) ts →
  log (turns ts n) = log n
  ∧ requestController (turns ts n) = requestController n
  ∧ controllers (turns ts n) = controllers n.
Proof.
  intros Hts. revert n. induction Hts as [|t ts Ht _ IH]; intros n; [done|].
  simpl. destruct (IH (turn n t)) as (-> & -> & ->). by apply turn_frame.
Qed.

Lemma signals_fetchResult this url n :
  signals (log (fetchResult this url n)) = signals (log n) ++ [controllers n].
Proof.
  rewrite log_fetchResult. unfold signals, aborted. rewrite !omap_app.
  by destruct (requestController n this).
Qed.

Lemma NFresh_turn n t : NFresh n → NFresh (turn n t).
Proof.
  intros [Hlt Hnd]. destruct t as [this url| | |].
  - unfold NFresh. change (turn n (Call_fetchResult this url)) with (fetchResult this url n).
    rewrite signals_fetchResult. simpl. split.
    + apply Forall_app. split; [|apply Forall_singleton; lia].
      eapply Forall_impl; [done|]. simpl. lia.
    + apply NoDup_app. split; [done|]. split; [|apply NoDup_singleton].
      intros c Hc ->%list_elem_of_singleton.
      rewrite Forall_forall in Hlt. specialize (Hlt _ Hc). lia.
  - done.
  - destruct (turn_frame n (Fetch_settles promise r)) as (Hl & _ & Hk); [done|].
    unfold NFresh. by rewrite Hl, Hk.
  - destruct (turn_frame n (Resume promise)) as (Hl & _ & Hk); [done|].
    unfold NFresh. by rewrite Hl, Hk.
Qed.

(** No two requests started along a history share a signal, so an
    [Abort] in the log cancels one request only. *)
Lemma signals_distinct ts : NoDup (signals (log (turns ts Net_init))).
Proof.
  assert (∀ n, NFresh n → NFresh (turns ts n)) as H.
  { induction ts as [|t ts IH]; intros n Hn; [done|].
    simpl. apply IH. by apply NFresh_turn. }
  apply H. split; simpl; [constructor | apply NoDup_nil_2].
Qed.

Lemma turns_app ts1 ts2 n : turns (ts1 ++ ts2) n = turns ts2 (turns ts1 n).
Proof. unfold turns. by rewrite foldl_app. Qed.

(** C4: [fetchResult] aborts the controller of the host's previous call,
    if there is one, and only then calls [fetch], all in the turn of the
    call; so along every history, and at every point of it, a host has at
    most one request that was started and not aborted, and when
    [fetchResult(urlA)] is followed by [fetchResult(urlB)] the abort of
    A's signal comes before B's [fetch]. *)
Theorem fetchResult_aborts_previous_first (ts mid : list Turn) (this : Element)
    (urlA urlB : string) :
  Forall (λ t, ∀ h url, t ≠ Call_fetchResult h url) mid →
  (∀ p, p `prefix_of` log (turns ts Net_init) → length (current_for this p) ≤ 1)
  ∧ log (fetchResult this urlA (turns ts Net_init)) =
      log (turns ts Net_init) ++ aborted this (turns ts Net_init)
        ++ [Fetch this urlA (controllers (turns ts Net_init)) Accept]
  ∧ current_for this (log (turns ts Net_init) ++ aborted this (turns ts Net_init)) = []
  ∧ log (turns (Call_fetchResult this urlA :: mid ++ [Call_fetchResult this urlB])
           (turns ts Net_init)) =
      log (turns ts Net_init) ++ aborted this (turns ts Net_init)
        ++ [Fetch this urlA (controllers (turns ts Net_init)) Accept;
            Abort (controllers (turns ts Net_init));
            Fetch this urlB (S (controllers (turns ts Net_init))) Accept].
Proof.
  intros Hmid. set (n := turns ts Net_init).
  destruct (NInv_turns ts Net_init NInv_init) as [Hc Hs]. fold n in Hc, Hs.
  split; [|split; [|split]].
  - intros p Hp. by apply Hs.
  - apply log_fetchResult.
  - by apply aborted_none_current.
  - change (Call_fetchResult this urlA :: mid ++ [Call_fetchResult this urlB])
      with ([Call_fetchResult this urlA] ++ mid ++ [Call_fetchResult this urlB]).
    rewrite !turns_app.
    change (turns [Call_fetchResult this urlA] n) with (fetchResult this urlA n).
    destruct (turns_frame mid (fetchResult this urlA n) Hmid) as (Hl & Hr & Hk).
    change (turns [Call_fetchResult this urlB] ?m) with (fetchResult this urlB m).
    assert (aborted this (turns mid (fetchResult this urlA n)) = [Abort (controllers n)])
      as Hab.
    { unfold aborted. rewrite Hr. simpl. by rewrite decide_True. }
    rewrite log_fetchResult, Hl, Hk, Hab, log_fetchResult.
    by rewrite <- !app_assoc.
Qed.

Lemma fetchResult_aborts_previous_first_witness :
  log (turns [Call_fetchResult 0 "/a";
              Fetch_settles 0 (Normal {| status := 200; text := Normal "late" |});
              Call_fetchResult 0 "/b"] Net_init)
  = [Fetch 0 "/a" 0 Accept; Abort 0; Fetch 0 "/b" 1 Accept].
Proof.
  destruct (fetchResult_aborts_previous_first []
              [Fetch_settles 0 (Normal {| status := 200; text := Normal "late" |})]
              0 "/a" "/b") as (_ & _ & _ & H).
  - repeat constructor; discriminate.
  - exact H.
Defined.

(** *** The body of [fetchResult] after its first [await] *)

Lemma turn_other_promise i n t task :
  promises n !! i = Some task → target t ≠ Some i →
  promises (turn n t) !! i = Some task.
Proof.
  intros Hi Ht. destruct t as [this url|policy|j r|j]; simpl in *.
  - by apply lookup_app_l_Some.
  - done.
  - assert (j ≠ i) by congruence.
    repeat case_match; simpl; rewrite ?list_lookup_insert_ne; done.
  - assert (j ≠ i) by congruence.
    repeat case_match; simpl; rewrite ?list_lookup_insert_ne; done.
Qed.

Lemma turns_other_promise i ts n task :
  promises n !! i = Some task → Forall (λ t, target t ≠ Some i) ts →
  promises (turns ts n) !! i = Some task.
Proof.
  intros Hi Hts. revert n Hi. induction Hts as [|t ts Ht _ IH]; intros n Hi; [done|].
  simpl. apply IH. by apply turn_other_promise.
Qed.

Lemma turn_Fetch_settles i r k n :
  promises n !! i = Some (AwaitFetch k) →
  promises (turn n (Fetch_settles i r)) !! i = Some (advance n (k r)).
Proof.
  intros Hi. simpl. rewrite Hi. simpl.
  apply list_lookup_insert_eq. by eapply lookup_lt_Some.
Qed.

Lemma turn_Resume_text i res k n :
  promises n !! i = Some (AwaitText res k) →
  promises (turn n (Resume i)) !! i = Some (advance n (k (text res))).
Proof.
  intros Hi. simpl. rewrite Hi. simpl.
  apply list_lookup_insert_eq. by eapply lookup_lt_Some.
Qed.

Lemma turn_Resume_policy i p k n :
  promises n !! i = Some (AwaitPolicy p k) →
  promises (turn n (Resume i)) !! i = Some (advance n (k p)).
Proof.
  intros Hi. simpl. rewrite Hi. simpl.
  apply list_lookup_insert_eq. by eapply lookup_lt_Some.
Qed.

Lemma turn_Resume_settled i r n :
  promises n !! i = Some (Settled r) →
  promises (turn n (Resume i)) !! i = Some (Settled r).
Proof. intros Hi. simpl. by rewrite Hi. Qed.

(** The promise of a call stays suspended at [fetch] until the transport
    settles it. *)
Lemma fetchResult_in_flight this url n mid :
  Forall (λ t, target t ≠ Some (length (promises n))) mid →
  promises (turns (Call_fetchResult this url :: mid) n) !! length (promises n)
  = Some (AwaitFetch fetchResult_resumed).
Proof.
  intros Hmid. simpl. apply turns_other_promise; [|done].
  unfold fetchResult. simpl. by rewrite lookup_app_r, Nat.sub_diag.
Qed.

Lemma success_path i n res s mid2 mid3 :
  promises n !! i = Some (AwaitFetch fetchResult_resumed) →
  ok res = true → text res = Normal s →
  Forall (λ t, target t ≠ Some i) mid2 → Forall (λ t, target t ≠ Some i) mid3 →
  promises (turns (Fetch_settles i (Normal res) :: mid2 ++ Resume i :: mid3 ++ [Resume i]) n)
    !! i
  = Some (Settled (success_result (cspTrustedTypesPolicyPromise n) res s)).
Proof.
  intros Hi Hok Htext H2 H3.
  change (Fetch_settles i (Normal res) :: mid2 ++ Resume i :: mid3 ++ [Resume i])
    with ([Fetch_settles i (Normal res)] ++ mid2 ++ [Resume i] ++ mid3 ++ [Resume i]).
  rewrite !turns_app.
  pose proof (turn_Fetch_settles i (Normal res) _ n Hi) as H.
  simpl in H. rewrite Hok in H. simpl in H.
  change (turns [Fetch_settles i (Normal res)] n) with (turn n (Fetch_settles i (Normal res))).
  set (n1 := turn n (Fetch_settles i (Normal res))) in *.
  unfold success_result.
  destruct (cspTrustedTypesPolicyPromise n) as [[p|e]|]; simpl in H.
  - apply (turns_other_promise i mid2) in H; [|done].
    apply turn_Resume_policy in H. simpl in H.
    apply (turns_other_promise i mid3) in H; [|done].
    apply turn_Resume_text in H. rewrite Htext in H. simpl in H. exact H.
  - apply (turns_other_promise i mid2) in H; [|done].
    apply turn_Resume_policy in H. simpl in H.
    apply (turns_other_promise i mid3) in H; [|done].
    by apply turn_Resume_settled in H.
  - apply (turns_other_promise i mid2) in H; [|done].
    apply turn_Resume_text in H. rewrite Htext in H. simpl in H.
    apply (turns_other_promise i mid3) in H; [|done].
    by apply turn_Resume_settled in H.
Qed.

Lemma ok_true res : 200 ≤ status res ≤ 299 → ok res = true.
Proof.
  intros [H1 H2]. unfold ok. apply andb_true_intro.
  split; by apply Nat.leb_le.
Qed.

Lemma ok_false res : status res < 200 ∨ 299 < status res → ok res = false.
Proof.
  intros H. unfold ok. apply andb_false_iff.
  destruct H; [left | right]; apply Nat.leb_gt; lia.
Qed.

(** C6: when the response is not a 2xx one, the call reads the body and
    rejects with an [Error] whose message is the body text, whatever else
    happens in between. *)
Theorem non_success_response_throws_body_text (this : Element) (url : string) (n : Net)
    (res : Response) (s : string) (mid1 mid2 : list Turn) :
  status res < 200 ∨ 299 < status res →
  text res = Normal s →
  Forall (λ t, target t ≠ Some (length (promises n))) mid1 →
  Forall (λ t, target t ≠ Some (length (promises n))) mid2 →
  promises (turns (Call_fetchResult this url
                     :: mid1 ++ Fetch_settles (length (promises n)) (Normal res)
                     :: mid2 ++ [Resume (length (promises n))]) n)
    !! length (promises n)
  = Some (Settled (Throw (Error s))).
Proof.
  intros Hok%ok_false Htext H1 H2.
  pose proof (fetchResult_in_flight this url n mid1 H1) as H.
  set (i := length (promises n)) in *.
  change (Call_fetchResult this url :: mid1 ++ Fetch_settles i (Normal res) :: mid2 ++ [Resume i])
    with ((Call_fetchResult this url :: mid1) ++ [Fetch_settles i (Normal res)]
            ++ mid2 ++ [Resume i]).
  rewrite !turns_app.
  apply (turn_Fetch_settles i (Normal res)) in H. simpl in H. rewrite Hok in H. simpl in H.
  apply (turns_other_promise i mid2) in H; [|done].
  apply turn_Resume_text in H. rewrite Htext in H. exact H.
Qed.

Lemma non_success_response_throws_body_text_witness :
  promises (turns [Call_fetchResult 0 "/search";
                   Fetch_settles 0 (Normal {| status := 404; text := Normal "not found" |});
                   Resume 0] Net_init) !! 0
  = Some (Settled (Throw (Error "not found"))).
Proof.
  apply (non_success_response_throws_body_text 0 "/search" Net_init
           {| status := 404; text := Normal "not found" |} "not found" [] []).
  - right. simpl. lia.
  - reflexivity.
  - constructor.
  - constructor.
Defined.

(** C7: on a 2xx response, when the policy variable holds a promise of a
    policy the call awaits that promise, then reads the body and settles
    with what the policy's [createHTML] makes of the text and the
    response; when the variable is [null] it settles with the text. *)
Theorem success_response_sanitized_or_raw (this : Element) (url : string) (n : Net)
    (res : Response) (s : string) (mid1 mid2 mid3 : list Turn) :
  200 ≤ status res ≤ 299 →
  text res = Normal s →
  Forall (λ t, target t ≠ Some (length (promises n))) mid1 →
  Forall (λ t, target t ≠ Some (length (promises n))) mid2 →
  Forall (λ t, target t ≠ Some (length (promises n))) mid3 →
  (∀ p, cspTrustedTypesPolicyPromise (turns (Call_fetchResult this url :: mid1) n)
          = Some (Normal p) →
     (∃ k, promises (turn (turns (Call_fetchResult this url :: mid1) n)
                       (Fetch_settles (length (promises n)) (Normal res)))
             !! length (promises n)
           = Some (AwaitPolicy (Normal p) k))
     ∧ promises (turns (Fetch_settles (length (promises n)) (Normal res)
                          :: mid2 ++ Resume (length (promises n))
                          :: mid3 ++ [Resume (length (promises n))])
                   (turns (Call_fetchResult this url :: mid1) n))
         !! length (promises n)
       = Some (Settled (Completion_map Trusted (createHTML p s res))))
  ∧ (cspTrustedTypesPolicyPromise (turns (Call_fetchResult this url :: mid1) n) = None →
     promises (turns (Fetch_settles (length (promises n)) (Normal res)
                        :: mid2 ++ [Resume (length (promises n))])
                 (turns (Call_fetchResult this url :: mid1) n))
       !! length (promises n)
     = Some (Settled (Normal (Str s)))).
Proof.
  intros Hok%ok_true Htext H1 H2 H3.
  pose proof (fetchResult_in_flight this url n mid1 H1) as H.
  set (i := length (promises n)) in *.
  set (n1 := turns (Call_fetchResult this url :: mid1) n) in *. clearbody n1.
  split.
  - intros p Hp. split.
    + apply (turn_Fetch_settles i (Normal res)) in H.
      unfold fetchResult_resumed in H. rewrite Hok in H.
      cbn [negb advance] in H. rewrite Hp in H. eauto.
    + rewrite (success_path i n1 res s mid2 mid3) by done. by rewrite Hp.
  - intros Hp.
    change (Fetch_settles i (Normal res) :: mid2 ++ [Resume i])
      with ([Fetch_settles i (Normal res)] ++ mid2 ++ [Resume i]).
    rewrite !turns_app.
    apply (turn_Fetch_settles i (Normal res)) in H.
    unfold fetchResult_resumed in H. rewrite Hok in H.
    cbn [negb advance] in H. rewrite Hp in H.
    apply (turns_other_promise i mid2) in H; [|done].
    apply turn_Resume_text in H. rewrite Htext in H. exact H.
Qed.

Lemma success_response_sanitized_or_raw_witness :
  promises (turns [Call_setCSPTrustedTypesPolicy (Some (APolicy upper_policy));
                   Call_fetchResult 0 "/search";
                   Fetch_settles 0 (Normal {| status := 200; text := Normal "hello" |});
                   Resume 0; Resume 0] Net_init) !! 0 ≫= text_conversion
  = Some "HELLO"
  ∧ promises (turns [Call_fetchResult 0 "/search";
                     Fetch_settles 0 (Normal {| status := 200; text := Normal "hello" |});
                     Resume 0] Net_init) !! 0
    = Some (Settled (Normal (Str "hello"))).
Proof.
  split.
  - destruct (success_response_sanitized_or_raw 0 "/search"
                (turns [Call_setCSPTrustedTypesPolicy (Some (APolicy upper_policy))] Net_init)
                {| status := 200; text := Normal "hello" |} "hello" [] [] [])
      as [H _]; [simpl; lia | reflexivity | constructor | constructor | constructor |].
    destruct (H upper_policy) as [_ H']; [reflexivity|].
    exact (f_equal (λ o, o ≫= text_conversion) H').
  - destruct (success_response_sanitized_or_raw 0 "/search" Net_init
                {| status := 200; text := Normal "hello" |} "hello" [] [] [])
      as [_ H]; [simpl; lia | reflexivity | constructor | constructor | constructor |].
    apply H. reflexivity.
Defined.

(** C5 as the code has it: [fetchResult] reads the policy variable in the
    turn in which [fetch] settles.  A policy set while the request is in
    flight is the one the call uses; what the variable held when the call
    started, and what it is set to once the response has arrived, make no
    difference. *)
Theorem policy_read_when_response_arrives (this : Element) (url : string) (n : Net)
    (res : Response) (s : string) (old new later1 later2 : option PolicyArg) :
  200 ≤ status res ≤ 299 →
  text res = Normal s →
  promises (turns [Call_setCSPTrustedTypesPolicy old;
                   Call_fetchResult this url;
                   Call_setCSPTrustedTypesPolicy new;
                   Fetch_settles (length (promises n)) (Normal res);
                   Call_setCSPTrustedTypesPolicy later1;
                   Resume (length (promises n));
                   Call_setCSPTrustedTypesPolicy later2;
                   Resume (length (promises n))] n)
    !! length (promises n)
  = Some (Settled (success_result (Promise_resolve <$> new) res s)).
Proof.
  intros Hok%ok_true Htext.
  set (i := length (promises n)).
  set (n0 := setCSPTrustedTypesPolicy old n).
  pose proof (fetchResult_in_flight this url n0 [Call_setCSPTrustedTypesPolicy new]) as H.
  change (length (promises n0)) with i in H.
  pose proof (success_path i
                (turns [Call_fetchResult this url; Call_setCSPTrustedTypesPolicy new] n0)
                res s [Call_setCSPTrustedTypesPolicy later1]
                [Call_setCSPTrustedTypesPolicy later2]) as Hrun.
  etrans; [apply Hrun; try done|].
  - apply H. by repeat constructor.
  - by repeat constructor.
  - by repeat constructor.
  - by destruct new.
Qed.

Lemma policy_read_when_response_arrives_witness :
  promises (turns [Call_setCSPTrustedTypesPolicy None;
                   Call_fetchResult 0 "/search";
                   Call_setCSPTrustedTypesPolicy (Some (APolicy upper_policy));
                   Fetch_settles 0 (Normal {| status := 200; text := Normal "hello" |});
                   Call_setCSPTrustedTypesPolicy (Some (APolicy identity_policy));
                   Resume 0;
                   Call_setCSPTrustedTypesPolicy None;
                   Resume 0] Net_init) !! 0
  = Some (Settled (Normal (Trusted {| toString := "HELLO" |}))).
Proof.
  apply (policy_read_when_response_arrives 0 "/search" Net_init
           {| status := 200; text := Normal "hello" |} "hello"
           None (Some (APolicy upper_policy)) (Some (APolicy identity_policy)) None).
  - simpl. lia.
  - reflexivity.
Defined.

(** C5 as stated fails: the call starts under the identity policy, the
    policy is replaced by the upper-casing one while the request is in
    flight, and the call settles with the replacement's output. *)
Lemma policy_replaced_in_flight_counterexample :
  promises (turns [Call_setCSPTrustedTypesPolicy (Some (APolicy identity_policy));
                   Call_fetchResult 0 "/search";
                   Call_setCSPTrustedTypesPolicy (Some (APolicy upper_policy));
                   Fetch_settles 0 (Normal {| status := 200; text := Normal "hello" |});
                   Resume 0; Resume 0] Net_init) !! 0
  = Some (Settled (Normal (Trusted {| toString := "HELLO" |})))
  ∧ Completion_map Trusted
      (createHTML identity_policy "hello" {| status := 200; text := Normal "hello" |})
    = Normal (Trusted {| toString := "hello" |})
  ∧ Normal (Trusted {| toString := "HELLO" |})
    ≠ Completion_map Trusted
        (createHTML identity_policy "hello" {| status := 200; text := Normal "hello" |}).
Proof. split; [|split]; [vm_compute; reflexivity | reflexivity | discriminate]. Qed.

(** * Further properties of the element *)

(** ** The attribute store *)

Lemma setAttribute_unobserved_world this name v w :
  name ∉ observedAttributes →
  (setAttribute this name v w).2 = with_attributes this (λ m, <[name := v]> m) w.
Proof.
  intros Hobs. unfold setAttribute. run_M. by rewrite bool_decide_eq_false_2.
Qed.

Lemma observed_not_role name : name ∈ observedAttributes → name ≠ "role".
Proof.
  intros H ->. revert H. change ("role" ∉ observedAttributes).
  apply (bool_decide_unpack _). by vm_compute.
Qed.

Lemma getAttribute_with_attributes this f w e name :
  getAttribute e name (with_attributes this f w) =
  if decide (e = this) then f (attributes (dom w) e) !! name else getAttribute e name w.
Proof. unfold getAttribute. simpl. by case_decide. Qed.

(** After [setAttribute(name, value)] the attribute reads [value], and
    the other attributes of the host, [role] apart, read as before. *)
Lemma getAttribute_setAttribute this name v w name' :
  name' ≠ "role" ∨ name' = name →
  getAttribute this name' (setAttribute this name v w).2 =
  if decide (name' = name) then Some v else getAttribute this name' w.
Proof.
  intros Hname'. destruct (decide (name ∈ observedAttributes)) as [Hobs|Hobs].
  - assert (name' ≠ "role") as Hrole.
    { destruct Hname' as [?| ->]; [done | by apply observed_not_role]. }
    rewrite setAttribute_observed, attributeChangedCallback_getAttribute by done.
    rewrite getAttribute_with_attributes, decide_True by done.
    case_decide as Heq; [subst; apply lookup_insert_eq | by rewrite lookup_insert_ne].
  - rewrite setAttribute_unobserved_world by done.
    rewrite getAttribute_with_attributes, decide_True by done.
    case_decide as Heq; [subst; apply lookup_insert_eq | by rewrite lookup_insert_ne].
Qed.

Lemma removeAttribute_absent this name w :
  getAttribute this name w = None → removeAttribute this name w = (Normal tt, w).
Proof. intros H. unfold removeAttribute. run_M. by rewrite H. Qed.

Lemma removeAttribute_unobserved_world this name v w :
  name ∉ observedAttributes → getAttribute this name w = Some v →
  (removeAttribute this name w).2 = with_attributes this (λ m, delete name m) w.
Proof.
  intros Hobs Hv. unfold removeAttribute. run_M. rewrite Hv.
  by rewrite bool_decide_eq_false_2.
Qed.

Lemma getAttribute_removeAttribute this name w name' :
  name' ≠ "role" ∨ name' = name →
  getAttribute this name' (removeAttribute this name w).2 =
  if decide (name' = name) then None else getAttribute this name' w.
Proof.
  intros Hname'. destruct (getAttribute this name w) as [v|] eqn:Hv.
  - destruct (decide (name ∈ observedAttributes)) as [Hobs|Hobs].
    + assert (name' ≠ "role") as Hrole.
      { destruct Hname' as [?| ->]; [done | by apply observed_not_role]. }
      rewrite (removeAttribute_observed _ _ v), attributeChangedCallback_getAttribute
        by done.
      rewrite getAttribute_with_attributes, decide_True by done.
      case_decide as Heq; [subst; apply lookup_delete_eq | by rewrite lookup_delete_ne].
    + rewrite (removeAttribute_unobserved_world _ _ v) by done.
      rewrite getAttribute_with_attributes, decide_True by done.
      case_decide as Heq; [subst; apply lookup_delete_eq | by rewrite lookup_delete_ne].
  - rewrite removeAttribute_absent by done. simpl. case_decide; by subst.
Qed.

(** X1: the string properties are mirrors of their attributes: what
    [value], [dataValue] or [src] is set to is what it reads afterwards,
    the empty string included, and setting one leaves the other two as
    they read before. *)
Theorem string_properties_read_back (this : Element) (v : string) (w : World) :
  (value this (set_value this v w).2 = v
   ∧ dataValue this (set_value this v w).2 = dataValue this w
   ∧ src this (set_value this v w).2 = src this w)
  ∧ (dataValue this (set_dataValue this v w).2 = v
     ∧ value this (set_dataValue this v w).2 = value this w
     ∧ src this (set_dataValue this v w).2 = src this w)
  ∧ (src this (set_src this v w).2 = v
     ∧ value this (set_src this v w).2 = value this w
     ∧ dataValue this (set_src this v w).2 = dataValue this w).
Proof.
  unfold value, dataValue, src, set_value, set_dataValue, set_src.
  rewrite !or_string_default.
  rewrite !getAttribute_setAttribute by (left; done).
  repeat (rewrite decide_True by done). repeat (rewrite decide_False by done).
  done.
Qed.

Lemma getAttribute_toggleAttribute this name force w name' :
  name' ≠ "role" ∨ name' = name →
  getAttribute this name' (toggleAttribute this name force w).2 =
  if decide (name' = name)
  then (if force then Some (default "" (getAttribute this name w)) else None)
  else getAttribute this name' w.
Proof.
  intros Hname'. unfold toggleAttribute. unfold mbind, M_bind, gets. simpl.
  destruct (getAttribute this name w) as [v|] eqn:Hv, force; simpl.
  - case_decide; by subst.
  - rewrite getAttribute_removeAttribute by done. by case_decide.
  - rewrite getAttribute_setAttribute by done. by case_decide.
  - case_decide; by subst.
Qed.

(** X2: the boolean properties are mirrors of the presence of their
    attributes: [open] and [fetchOnEmpty] read what they were last set
    to, and setting one leaves the other as it read before. *)
Theorem boolean_properties_read_back (this : Element) (b : bool) (w : World) :
  open this (set_open this b w).2 = b
  ∧ fetchOnEmpty this (set_open this b w).2 = fetchOnEmpty this w
  ∧ fetchOnEmpty this (set_fetchOnEmpty this b w).2 = b
  ∧ open this (set_fetchOnEmpty this b w).2 = open this w.
Proof.
  unfold open, fetchOnEmpty, hasAttribute, set_open, set_fetchOnEmpty.
  fold (getAttribute this "open" w) (getAttribute this "fetch-on-empty" w).
  repeat split.
  - destruct b.
    + fold (getAttribute this "open" (setAttribute this "open" "" w).2).
      by rewrite getAttribute_setAttribute by (by left).
    + fold (getAttribute this "open" (removeAttribute this "open" w).2).
      by rewrite getAttribute_removeAttribute by (by left).
  - destruct b.
    + fold (getAttribute this "fetch-on-empty" (setAttribute this "open" "" w).2).
      by rewrite getAttribute_setAttribute by (by left).
    + fold (getAttribute this "fetch-on-empty" (removeAttribute this "open" w).2).
      by rewrite getAttribute_removeAttribute by (by left).
  - fold (getAttribute this "fetch-on-empty"
            (toggleAttribute this "fetch-on-empty" b w).2).
    rewrite getAttribute_toggleAttribute by (by left).
    rewrite decide_True by done. by destruct b.
  - fold (getAttribute this "open" (toggleAttribute this "fetch-on-empty" b w).2).
    by rewrite getAttribute_toggleAttribute by (by left).
Qed.

Lemma with_attributes_frame this f w :
  trace (with_attributes this f w) = trace w
  ∧ state (with_attributes this f w) = state w
  ∧ priv (with_attributes this f w) = priv w.
Proof. done. Qed.

Lemma src_not_observed : "src" ∉ observedAttributes.
Proof. apply (bool_decide_unpack _). by vm_compute. Qed.

Lemma fetch_on_empty_not_observed : "fetch-on-empty" ∉ observedAttributes.
Proof. apply (bool_decide_unpack _). by vm_compute. Qed.

(** X3: the [src] and [fetchOnEmpty] setters never reach the engine.
    The attributes they write, [src] and [fetch-on-empty], are not among
    the four the element observes, so in every world and for every value
    assigned the setter adds nothing to the trace and leaves the table
    and the private fields as they were. *)
Theorem src_and_fetchOnEmpty_never_reach_engine (this : Element) (u : string) (b : bool)
    (w : World) :
  (trace (set_src this u w).2 = trace w
   ∧ state (set_src this u w).2 = state w
   ∧ priv (set_src this u w).2 = priv w)
  ∧ (trace (set_fetchOnEmpty this b w).2 = trace w
     ∧ state (set_fetchOnEmpty this b w).2 = state w
     ∧ priv (set_fetchOnEmpty this b w).2 = priv w).
Proof.
  split.
  - unfold set_src. by rewrite setAttribute_unobserved_world by apply src_not_observed.
  - pose proof (setAttribute_unobserved_world this "fetch-on-empty" "" w
                  fetch_on_empty_not_observed) as Hset.
    pose proof (removeAttribute_unobserved_world this "fetch-on-empty") as Hrem.
    unfold set_fetchOnEmpty, toggleAttribute, mbind, M_bind, gets.
    cbn [fst snd]. destruct (getAttribute this "fetch-on-empty" w) as [x|] eqn:Hx, b.
    + done.
    + by rewrite (Hrem x w fetch_on_empty_not_observed Hx).
    + by rewrite Hset.
    + done.
Qed.

(** ** The element binding resolver *)

Lemma bind_snd {A} (m : M unit) (k : unit → M A) w :
  (m w).1 = Normal tt → ((m ≫= k) w).2 = (k tt (m w).2).2.
Proof.
  unfold mbind, M_bind. destruct (m w) as [[[]|e] w']; simpl; [done | discriminate].
Qed.

Lemma reattachState_connectivity this w :
  isConnected (dom (reattachState this w).2) = isConnected (dom w)
  ∧ getRootNode (dom (reattachState this w).2) = getRootNode (dom w)
  ∧ getElementById (dom (reattachState this w).2) = getElementById (dom w)
  ∧ querySelector (dom (reattachState this w).2) = querySelector (dom w).
Proof. rewrite reattachState_dom. by destruct (constructed this w). Qed.

Lemma set_inputElement_world this i w :
  (set_inputElement this i w).2 =
  (reattachState this
     (set_priv this (λ p, {| priv_forElement := priv_forElement p;
                             priv_inputElement := i;
                             priv_hiddenInputElement := priv_hiddenInputElement p |}) w).2).2.
Proof. unfold set_inputElement. by rewrite bind_snd. Qed.

Lemma set_hiddenInputElement_world this i w :
  (set_hiddenInputElement this i w).2 =
  (reattachState this
     (set_priv this (λ p, {| priv_forElement := priv_forElement p;
                             priv_inputElement := priv_inputElement p;
                             priv_hiddenInputElement := i |}) w).2).2.
Proof. unfold set_hiddenInputElement. by rewrite bind_snd. Qed.

(** X4: a reference assigned to [inputElement] or [hiddenInputElement]
    is what the getter returns for as long as the element is connected;
    once it is not, or when [null] was assigned, the getter is the
    [querySelector] lookup in the host's subtree again.  This holds in
    whatever document the host finds itself later. *)
Theorem assigned_input_preferred_while_connected (this : Element) (i : option Element)
    (w : World) (d : Dom) :
  inputElement this (set_dom d (set_inputElement this i w).2).2 =
    match i with
    | Some e => if isConnected d e then Some e else querySelector d this "input"
    | None => querySelector d this "input"
    end
  ∧ hiddenInputElement this (set_dom d (set_hiddenInputElement this i w).2).2 =
      match i with
      | Some e => if isConnected d e then Some e
                  else querySelector d this "input[type='hidden']"
      | None => querySelector d this "input[type='hidden']"
      end
  ∧ inputElement this (set_inputElement this i w).2 =
      match i with
      | Some e => if isConnected (dom w) e then Some e
                  else querySelector (dom w) this "input"
      | None => querySelector (dom w) this "input"
      end.
Proof.
  rewrite set_inputElement_world, set_hiddenInputElement_world.
  unfold inputElement, hiddenInputElement, connected. simpl.
  repeat match goal with
         | |- context [reattachState this ?x] =>
             let H := fresh in let Hp := fresh in
             destruct (reattachState_spec this x) as (_ & _ & _ & Hp & _);
             destruct (reattachState_connectivity this x) as (H & _ & _ & Hq);
             rewrite ?Hp, ?H, ?Hq; clear H Hp Hq
         end.
  simpl. rewrite !decide_True by done. simpl. by destruct i.
Qed.

Lemma attributeChangedCallback_priv this name o n w :
  priv (attributeChangedCallback this name o n w).2 = priv w.
Proof.
  unfold attributeChangedCallback. case_bool_decide; [done|]. run_M.
  destruct (state w !! this) as [a|]; [|done]. fold (rebind this w).
  destruct (rebind this w).
  - destruct (reattachState_spec this w) as (Hr & _ & _ & Hp & _).
    destruct (reattachState this w) as [r w']. simpl in *. subst r. simpl.
    repeat case_match; simplify_eq/=; done.
  - simpl. repeat case_match; simplify_eq/=; done.
Qed.

Lemma attributeChangedCallback_connectivity this name o n w :
  isConnected (dom (attributeChangedCallback this name o n w).2) = isConnected (dom w)
  ∧ getRootNode (dom (attributeChangedCallback this name o n w).2) = getRootNode (dom w)
  ∧ getElementById (dom (attributeChangedCallback this name o n w).2)
    = getElementById (dom w)
  ∧ querySelector (dom (attributeChangedCallback this name o n w).2)
    = querySelector (dom w).
Proof.
  destruct (attributeChangedCallback_dom this name o n w) as [->| ->]; [done|].
  apply reattachState_connectivity.
Qed.

(** [setAttribute] on the host changes attributes only. *)
Lemma setAttribute_frame this name v w :
  priv (setAttribute this name v w).2 = priv w
  ∧ isConnected (dom (setAttribute this name v w).2) = isConnected (dom w)
  ∧ getRootNode (dom (setAttribute this name v w).2) = getRootNode (dom w)
  ∧ getElementById (dom (setAttribute this name v w).2) = getElementById (dom w)
  ∧ querySelector (dom (setAttribute this name v w).2) = querySelector (dom w).
Proof.
  destruct (decide (name ∈ observedAttributes)) as [Hobs|Hobs].
  - rewrite setAttribute_observed by done.
    rewrite attributeChangedCallback_priv.
    by destruct (attributeChangedCallback_connectivity this name
                   (getAttribute this name w) (Some v)
                   (with_attributes this (λ m, <[name := v]> m) w))
      as (-> & -> & -> & ->).
  - by rewrite setAttribute_unobserved_world.
Qed.

Lemma set_forElement_world this el w :
  (set_forElement this el w).2 =
  (setAttribute this "for" ""
     (set_priv this (λ p, {| priv_forElement := el;
                             priv_inputElement := priv_inputElement p;
                             priv_hiddenInputElement := priv_hiddenInputElement p |}) w).2).2.
Proof. unfold set_forElement. by rewrite bind_snd. Qed.

(** X5: assigning [forElement] stores the reference and overwrites the
    [for] attribute with the empty string.  Afterwards the getter returns
    the assigned element if it is connected and [null] otherwise: the id
    the attribute held before is gone, so assigning [null] or a detached
    element leaves the host without a results container. *)
Theorem assigned_forElement_replaces_id_lookup (this : Element) (el : option Element)
    (w : World) :
  forElement this (set_forElement this el w).2 =
    match el with
    | Some e => if isConnected (dom w) e then Some e else None
    | None => None
    end
  ∧ getAttribute this "for" (set_forElement this el w).2 = Some "".
Proof.
  rewrite set_forElement_world.
  match goal with |- context [setAttribute this "for" "" ?x] => set (w1 := x) end.
  assert (getAttribute this "for" (setAttribute this "for" "" w1).2 = Some "") as Hfor.
  { rewrite getAttribute_setAttribute by (by left). by rewrite decide_True. }
  split; [|done].
  destruct (setAttribute_frame this "for" "" w1) as (Hp & Hc & _).
  unfold forElement, connected. rewrite Hfor, Hp, Hc. simpl.
  rewrite decide_True by done. simpl. by destruct el as [e|]; [destruct (isConnected _ e)|].
Qed.

Lemma emitted_set_inputElement this i w :
  emitted (set_inputElement this i) w =
  emitted (reattachState this)
    (set_priv this (λ p, {| priv_forElement := priv_forElement p;
                            priv_inputElement := i;
                            priv_hiddenInputElement := priv_hiddenInputElement p |}) w).2.
Proof. unfold emitted. by rewrite set_inputElement_world. Qed.

(** X6: assigning [inputElement] a connected input, on a host whose
    [for] target resolves, rebuilds the engine at once: the engine the
    table held is destroyed, a new one is constructed on the new input,
    the resolved target and the hidden input, the table holds it, and the
    target carries [role="listbox"]. *)
Theorem input_reassignment_rebuilds_engine (this i f : Element) (w : World) :
  isConnected (dom w) i = true →
  forElement this w = Some f →
  emitted (set_inputElement this (Some i)) w =
    destroyed this w
      ++ [New_Autocomplete
            {| uid := allocated w; container := this; input := i;
               hiddenInput := hiddenInputElement this w; results := f;
               autoselectEnabled :=
                 bool_decide (getAttribute this "data-autoselect" w = Some "true") |}]
  ∧ state (set_inputElement this (Some i) w).2 !! this =
      Some {| uid := allocated w; container := this; input := i;
              hiddenInput := hiddenInputElement this w; results := f;
              autoselectEnabled :=
                bool_decide (getAttribute this "data-autoselect" w = Some "true") |}
  ∧ getAttribute f "role" (set_inputElement this (Some i) w).2 = Some "listbox".
Proof.
  intros Hi Hf. rewrite emitted_set_inputElement, set_inputElement_world.
  match goal with |- context [reattachState this ?x] => set (w1 := x) end.
  assert (constructed this w1 =
            Some {| uid := allocated w; container := this; input := i;
                    hiddenInput := hiddenInputElement this w; results := f;
                    autoselectEnabled :=
                      bool_decide (getAttribute this "data-autoselect" w = Some "true") |})
    as Hcons.
  { unfold constructed.
    assert (forElement this w1 = Some f) as ->.
    { rewrite <- Hf. unfold forElement, connected, getAttribute, w1. simpl.
      by rewrite decide_True. }
    assert (inputElement this w1 = Some i) as ->.
    { unfold inputElement, connected, w1. simpl. rewrite decide_True by done.
      simpl. by rewrite Hi. }
    assert (hiddenInputElement this w1 = hiddenInputElement this w) as ->.
    { unfold hiddenInputElement, connected, w1. simpl. by rewrite decide_True. }
    done. }
  rewrite emitted_reattachState, Hcons.
  destruct (reattachState_spec this w1) as (_ & _ & -> & _).
  rewrite Hcons, lookup_insert_eq. split; [done|]. split; [done|].
  unfold getAttribute. rewrite reattachState_dom, Hcons. simpl.
  rewrite decide_True by done. apply lookup_insert_eq.
Qed.

Lemma input_reassignment_rebuilds_engine_witness :
  emitted (set_inputElement 0 (Some 7))
    (run [ConnectedCallback 0] (initial (page (Some 1) (Some 2))))
  = [Destroy 0; New_Autocomplete (engine 1 7 1)]
  ∧ state (set_inputElement 0 (Some 7)
             (run [ConnectedCallback 0] (initial (page (Some 1) (Some 2))))).2 !! 0
    = Some (engine 1 7 1).
Proof.
  destruct (input_reassignment_rebuilds_engine 0 7 1
              (run [ConnectedCallback 0] (initial (page (Some 1) (Some 2)))))
    as (H1 & H2 & _); [reflexivity | by vm_compute |].
  split; [etrans; [exact H1|] | etrans; [exact H2|]]; by vm_compute.
Defined.

(** ** Where engines come from *)

Lemma attributeChangedCallback_no_entry this name o n w :
  state w !! this = None → attributeChangedCallback this name o n w = (Normal tt, w).
Proof.
  intros Hnone. unfold attributeChangedCallback. case_bool_decide; [done|].
  run_M. by rewrite Hnone.
Qed.

Lemma setAttribute_no_entry this name v w :
  state w !! this = None →
  (setAttribute this name v w).2 = with_attributes this (λ m, <[name := v]> m) w.
Proof.
  intros Hnone. destruct (decide (name ∈ observedAttributes)) as [Hobs|Hobs].
  - rewrite setAttribute_observed by done. by rewrite attributeChangedCallback_no_entry.
  - by apply setAttribute_unobserved_world.
Qed.

Lemma removeAttribute_no_entry this name w :
  state w !! this = None →
  trace (removeAttribute this name w).2 = trace w
  ∧ state (removeAttribute this name w).2 = state w.
Proof.
  intros Hnone. destruct (getAttribute this name w) as [v|] eqn:Hv.
  - destruct (decide (name ∈ observedAttributes)) as [Hobs|Hobs].
    + rewrite (removeAttribute_observed _ _ v) by done.
      by rewrite attributeChangedCallback_no_entry.
    + by rewrite (removeAttribute_unobserved_world _ _ v).
  - by rewrite removeAttribute_absent.
Qed.

(** X7: on a host for which the table holds no engine, only
    [connectedCallback] and the two input setters can construct one.
    Every other call on such a host (an attribute set or removed, a
    property set, [forElement] assigned, the callbacks for attribute
    changes and disconnection) constructs nothing and leaves trace and
    table as they were, even when both bindings would now resolve.  (On
    a host that has a table entry the rebind check of
    [attributeChangedCallback] constructs too.) *)
Theorem no_engine_without_reattach (c : Call) (w : World) :
  (∀ this, host_of c = Some this → state w !! this = None) →
  reattaches c = false →
  trace (perform w c) = trace w ∧ state (perform w c) = state w.
Proof.
  intros Hhost Hc. unfold perform.
  destruct c as [this|this|this name o n|this name v|this name|this el|this i|this i
                |this u|this v|this v|this b|this b|d];
    try discriminate; cbn [call]; try (specialize (Hhost this eq_refl)).
  - unfold disconnectedCallback. run_M. by rewrite Hhost.
  - by rewrite attributeChangedCallback_no_entry.
  - by rewrite setAttribute_no_entry.
  - by apply removeAttribute_no_entry.
  - rewrite set_forElement_world. by rewrite setAttribute_no_entry.
  - unfold set_src. by rewrite setAttribute_no_entry.
  - unfold set_value. by rewrite setAttribute_no_entry.
  - unfold set_dataValue. by rewrite setAttribute_no_entry.
  - unfold set_open. destruct b; [by rewrite setAttribute_no_entry|].
    by apply removeAttribute_no_entry.
  - unfold set_fetchOnEmpty, toggleAttribute, mbind, M_bind, gets. simpl.
    destruct (getAttribute this "fetch-on-empty" w), b; simpl;
      first [ done | by apply removeAttribute_no_entry | by rewrite setAttribute_no_entry ].
  - done.
Qed.

Lemma no_engine_without_reattach_witness :
  constructed 0 (perform (initial (page None (Some 2))) (Set_forElement 0 (Some 1)))
    = Some (engine 0 2 1)
  ∧ trace (perform (initial (page None (Some 2))) (Set_forElement 0 (Some 1))) = []
  ∧ state (perform (initial (page None (Some 2))) (Set_forElement 0 (Some 1))) = ∅.
Proof.
  split; [by vm_compute|].
  apply (no_engine_without_reattach (Set_forElement 0 (Some 1)) (initial (page None (Some 2)))).
  - intros this _. apply lookup_empty.
  - reflexivity.
Defined.

(** ** Connection and disconnection *)

Lemma connectedCallback_connected this w :
  isConnected (dom w) this = true →
  connectedCallback this w = reattachState this w.
Proof. intros Hc. unfold connectedCallback, mbind, M_bind, gets. simpl. by rewrite Hc. Qed.

(** X8: [connectedCallback] on a host that is not connected does
    nothing.  On a connected host whose [for] target and input resolve it
    leaves the table holding an engine built on exactly those elements
    and on the resolved hidden input, with autoselect on precisely when
    [data-autoselect] is the string ["true"]; the target then carries
    [role="listbox"] and no other attribute of any element has changed.
    When a binding is missing nothing is constructed and the document is
    left as it was. *)
Theorem connectedCallback_builds_on_resolved_bindings (this : Element) (w : World) :
  (isConnected (dom w) this = false → connectedCallback this w = (Normal tt, w))
  ∧ (isConnected (dom w) this = true →
     ∀ f i, forElement this w = Some f → inputElement this w = Some i →
     (∃ a, state (connectedCallback this w).2 !! this = Some a
           ∧ container a = this ∧ input a = i ∧ results a = f
           ∧ hiddenInput a = hiddenInputElement this w
           ∧ (autoselectEnabled a = true
              ↔ getAttribute this "data-autoselect" w = Some "true")
           ∧ constructions (emitted (connectedCallback this) w) = [a])
     ∧ getAttribute f "role" (connectedCallback this w).2 = Some "listbox"
     ∧ (∀ e name, e ≠ f ∨ name ≠ "role" →
        getAttribute e name (connectedCallback this w).2 = getAttribute e name w))
  ∧ (isConnected (dom w) this = true →
     forElement this w = None ∨ inputElement this w = None →
     constructions (emitted (connectedCallback this) w) = []
     ∧ dom (connectedCallback this w).2 = dom w).
Proof.
  split; [|split].
  - intros Hc. unfold connectedCallback, mbind, M_bind, gets. simpl. by rewrite Hc.
  - intros Hc f i Hf Hi. unfold emitted. rewrite connectedCallback_connected by done.
    fold (emitted (reattachState this) w). rewrite emitted_reattachState.
    destruct (reattachState_spec this w) as (_ & _ & Hst & _).
    pose proof (reattachState_dom this w) as Hdom.
    unfold getAttribute. rewrite Hst, Hdom. unfold constructed. rewrite Hf, Hi.
    split; [|split].
    + eexists. split; [apply lookup_insert_eq|]. simpl.
      repeat (split; [done|]). split.
      * split; [by intros ?%bool_decide_eq_true_1 | by intros ?; apply bool_decide_eq_true_2].
      * unfold constructions, destroyed. rewrite omap_app.
        by destruct (state w !! this).
    + simpl. rewrite decide_True by done. apply lookup_insert_eq.
    + intros e name Hne. simpl. case_decide as He; [|done]. subst e.
      destruct Hne as [?|?]; [done|]. by rewrite lookup_insert_ne.
  - intros Hc Hnone. unfold emitted. rewrite connectedCallback_connected by done.
    fold (emitted (reattachState this) w). rewrite emitted_reattachState.
    rewrite reattachState_dom.
    assert (constructed this w = None) as ->.
    { unfold constructed. destruct Hnone as [-> | ->]; [done|].
      by destruct (forElement this w). }
    split; [|done]. unfold constructions, destroyed. rewrite omap_app.
    by destruct (state w !! this).
Qed.

Lemma connectedCallback_builds_on_resolved_bindings_witness :
  state (connectedCallback 0 (initial (page (Some 1) (Some 2)))).2 !! 0
    = Some (engine 0 2 1)
  ∧ getAttribute 1 "role" (connectedCallback 0 (initial (page (Some 1) (Some 2)))).2
    = Some "listbox"
  ∧ constructions (emitted (connectedCallback 0) (initial (page None (Some 2)))) = [].
Proof.
  destruct (connectedCallback_builds_on_resolved_bindings 0 (initial (page (Some 1) (Some 2))))
    as (_ & H & _).
  destruct (H eq_refl 1 2) as (_ & Hrole & _); [by vm_compute | by vm_compute |].
  split; [by vm_compute|]. split; [exact Hrole|].
  destruct (connectedCallback_builds_on_resolved_bindings 0 (initial (page None (Some 2))))
    as (_ & _ & H').
  apply H'; [reflexivity | left; by vm_compute].
Defined.

Lemma disconnectedCallback_world this w :
  (disconnectedCallback this w).2 =
  {| dom := dom w; state := delete this (state w); priv := priv w;
     allocated := allocated w; trace := trace w ++ destroyed this w |}
  ∨ (state w !! this = None ∧ disconnectedCallback this w = (Normal tt, w)).
Proof.
  unfold disconnectedCallback, destroyed. run_M.
  destruct (state w !! this) as [a|]; [by left | by right].
Qed.

(** X9: after [disconnectedCallback], along any history, the table has
    no entry for the host and none of its engines is alive; the entries
    of the other hosts, the document and the private fields are as they
    were; and a second [disconnectedCallback] does nothing. *)
Theorem disconnectedCallback_removes_engine (d : Dom) (cs : list Call) (this : Element) :
  state (disconnectedCallback this (run cs (initial d))).2 !! this = None
  ∧ live_for this (trace (disconnectedCallback this (run cs (initial d))).2) = []
  ∧ (∀ h, h ≠ this →
     state (disconnectedCallback this (run cs (initial d))).2 !! h
     = state (run cs (initial d)) !! h)
  ∧ dom (disconnectedCallback this (run cs (initial d))).2 = dom (run cs (initial d))
  ∧ priv (disconnectedCallback this (run cs (initial d))).2 = priv (run cs (initial d))
  ∧ disconnectedCallback this (disconnectedCallback this (run cs (initial d))).2
    = (Normal tt, (disconnectedCallback this (run cs (initial d))).2).
Proof.
  set (w := run cs (initial d)).
  destruct (Inv_run cs (initial d) (Inv_initial d)) as [Hc _]. fold w in Hc.
  pose proof (destroy_current_none_live this _ _ Hc) as Hnone.
  destruct (disconnectedCallback_world this w) as [Hw|[Hs Hw]]; rewrite Hw; simpl.
  - split; [apply lookup_delete_eq|]. split; [done|].
    split; [by intros h Hh; rewrite lookup_delete_ne|]. split; [done|]. split; [done|].
    unfold disconnectedCallback. run_M. by rewrite lookup_delete_eq.
  - rewrite Hs, app_nil_r in Hnone. by rewrite Hw.
Qed.

(** ** Rebuilding twice *)

Lemma reattachState_getAttribute this w e attr :
  attr ≠ "role" → getAttribute e attr (reattachState this w).2 = getAttribute e attr w.
Proof.
  intros Hattr. unfold getAttribute. rewrite reattachState_dom.
  destruct (constructed this w); [|done]. simpl.
  case_decide; [|done]. by rewrite lookup_insert_ne.
Qed.

(** [#reattachState()] does not change what the bindings resolve to. *)
Lemma reattachState_bindings this that w :
  forElement that (reattachState this w).2 = forElement that w
  ∧ inputElement that (reattachState this w).2 = inputElement that w
  ∧ hiddenInputElement that (reattachState this w).2 = hiddenInputElement that w.
Proof.
  destruct (reattachState_spec this w) as (_ & _ & _ & Hp & _).
  destruct (reattachState_connectivity this w) as (Hc & Hr & Hg & Hq).
  pose proof (reattachState_getAttribute this w that "for") as Hfor.
  unfold forElement, inputElement, hiddenInputElement, connected.
  by rewrite Hp, Hc, Hr, Hg, Hq, Hfor.
Qed.

(** X10: [#reattachState()] run twice in a row, with both bindings
    resolved, builds the same engine twice and keeps the second: the
    first is destroyed before the second is constructed, on the same
    input, hidden input and target and with the same autoselect flag. *)
Theorem reattachState_twice_rebuilds_same_engine (this f i : Element) (w : World) :
  forElement this w = Some f →
  inputElement this w = Some i →
  ∃ a, constructed this w = Some a
       ∧ input a = i ∧ results a = f
       ∧ emitted (reattachState this;; reattachState this) w =
           destroyed this w
             ++ [New_Autocomplete a; Destroy (uid a);
                 New_Autocomplete
                   {| uid := S (uid a); container := container a; input := input a;
                      hiddenInput := hiddenInput a; results := results a;
                      autoselectEnabled := autoselectEnabled a |}]
       ∧ state ((reattachState this;; reattachState this) w).2 !! this =
           Some {| uid := S (uid a); container := container a; input := input a;
                   hiddenInput := hiddenInput a; results := results a;
                   autoselectEnabled := autoselectEnabled a |}.
Proof.
  intros Hf Hi.
  destruct (reattachState_spec this w) as (Hn & Htr & Hst & _ & Hal).
  destruct (reattachState_bindings this this w) as (Hf1 & Hi1 & Hh1).
  pose proof (reattachState_getAttribute this w this "data-autoselect") as Hauto.
  unfold emitted. rewrite bind_snd by done.
  set (w1 := (reattachState this w).2) in *.
  destruct (reattachState_spec this w1) as (_ & Htr1 & Hst1 & _).
  assert (constructed this w = Some
            {| uid := allocated w; container := this; input := i;
               hiddenInput := hiddenInputElement this w; results := f;
               autoselectEnabled :=
                 bool_decide (getAttribute this "data-autoselect" w = Some "true") |})
    as Hcons.
  { unfold constructed. by rewrite Hf, Hi. }
  assert (constructed this w1 = Some
            {| uid := S (allocated w); container := this; input := i;
               hiddenInput := hiddenInputElement this w; results := f;
               autoselectEnabled :=
                 bool_decide (getAttribute this "data-autoselect" w = Some "true") |})
    as Hcons1.
  { unfold constructed. rewrite Hf1, Hi1, Hh1, Hf, Hi, Hauto by done.
    rewrite Hal, Hcons. done. }
  rewrite Hcons in Htr, Hst.
  assert (destroyed this w1 = [Destroy (allocated w)]) as Hd1.
  { unfold destroyed. by rewrite Hst, lookup_insert_eq. }
  eexists. split; [exact Hcons|]. simpl. split; [done|]. split; [done|]. split.
  - rewrite Htr1, Htr, Hd1, Hcons1, <- !app_assoc, drop_app_length. done.
  - rewrite Hst1, Hcons1. apply lookup_insert_eq.
Qed.

Lemma reattachState_twice_rebuilds_same_engine_witness :
  state ((reattachState 0;; reattachState 0) (initial (page (Some 1) (Some 2)))).2 !! 0
    = Some (engine 1 2 1)
  ∧ emitted (reattachState 0;; reattachState 0) (initial (page (Some 1) (Some 2)))
    = [New_Autocomplete (engine 0 2 1); Destroy 0; New_Autocomplete (engine 1 2 1)].
Proof.
  destruct (reattachState_twice_rebuilds_same_engine 0 1 2 (initial (page (Some 1) (Some 2))))
    as (a & Ha & _ & _ & Hem & Hst); [by vm_compute | by vm_compute |].
  assert (Some a = Some (engine 0 2 1)) as Heq by (rewrite <- Ha; by vm_compute).
  injection Heq as ->. split; [exact Hst | exact Hem].
Defined.

(** ** Attribute changes, through the attribute API *)

Lemma emitted_setAttribute_observed this name v w :
  name ∈ observedAttributes →
  emitted (setAttribute this name v) w =
  emitted (attributeChangedCallback this name (getAttribute this name w) (Some v))
    (with_attributes this (λ m, <[name := v]> m) w).
Proof. intros Hobs. unfold emitted. by rewrite setAttribute_observed. Qed.

Lemma emitted_removeAttribute_observed this name v w :
  name ∈ observedAttributes → getAttribute this name w = Some v →
  emitted (removeAttribute this name) w =
  emitted (attributeChangedCallback this name (Some v) None)
    (with_attributes this (λ m, delete name m) w).
Proof.
  intros Hobs Hv. unfold emitted. by rewrite (removeAttribute_observed _ _ v).
Qed.

Lemma for_observed : "for" ∈ observedAttributes.
Proof. apply (bool_decide_unpack _). by vm_compute. Qed.

Lemma open_observed : "open" ∈ observedAttributes.
Proof. apply (bool_decide_unpack _). by vm_compute. Qed.

Lemma data_value_observed : "data-value" ∈ observedAttributes.
Proof. apply (bool_decide_unpack _). by vm_compute. Qed.

Lemma emitted_no_change this name o w :
  emitted (attributeChangedCallback this name o o) w = [].
Proof.
  unfold emitted, attributeChangedCallback. rewrite bool_decide_eq_true_2 by done.
  simpl. by rewrite drop_all.
Qed.

(** X11: setting the [for] attribute of a host that has an engine to the
    id of another element rebinds it: the old engine is destroyed and a
    new one, on the element the id now resolves to, takes its place in
    the table; no command is sent.  Setting [for] to the id it already
    holds does nothing at all, whatever that id resolves to by now. *)
Theorem for_attribute_change_rebinds (this : Element) (id : string) (f i : Element)
    (a : Autocomplete) (w : World) :
  state w !! this = Some a →
  (connected w (priv_forElement (priv w this)) = false →
   id ≠ "" →
   instanceof_Document_or_ShadowRoot (getRootNode (dom w) this) = true →
   getElementById (dom w) (getRootNode (dom w) this) id = Some f →
   inputElement this w = Some i →
   getAttribute this "for" w ≠ Some id →
   f ≠ results a →
   emitted (setAttribute this "for" id) w =
     [Destroy (uid a);
      New_Autocomplete
        {| uid := allocated w; container := this; input := i;
           hiddenInput := hiddenInputElement this w; results := f;
           autoselectEnabled :=
             bool_decide (getAttribute this "data-autoselect" w = Some "true") |}]
   ∧ state (setAttribute this "for" id w).2 !! this =
       Some {| uid := allocated w; container := this; input := i;
               hiddenInput := hiddenInputElement this w; results := f;
               autoselectEnabled :=
                 bool_decide (getAttribute this "data-autoselect" w = Some "true") |})
  ∧ (getAttribute this "for" w = Some id →
     emitted (setAttribute this "for" id) w = []
     ∧ state (setAttribute this "for" id w).2 = state w).
Proof.
  intros Ha. split.
  - intros Hpriv Hid Hroot Hget Hi Hold Hf.
    rewrite emitted_setAttribute_observed, setAttribute_observed by apply for_observed.
    set (w0 := with_attributes this (λ m, <["for" := id]> m) w).
    assert (state w0 !! this = Some a) as Ha0 by done.
    assert (forElement this w0 = Some f) as Hf0.
    { unfold forElement, connected, getAttribute, w0 in *. simpl. rewrite Hpriv.
      rewrite decide_True, lookup_insert_eq by done. simpl.
      destruct (String.eqb_spec id ""); [done|]. simpl. by rewrite Hroot. }
    assert (inputElement this w0 = Some i) as Hi0 by done.
    assert (rebind this w0 = true) as Hreb.
    { unfold rebind. rewrite Hf0, Ha0. simpl. by rewrite bool_decide_eq_true_2. }
    assert (constructed this w0 = Some
              {| uid := allocated w; container := this; input := i;
                 hiddenInput := hiddenInputElement this w; results := f;
                 autoselectEnabled :=
                   bool_decide (getAttribute this "data-autoselect" w = Some "true") |})
      as Hcons.
    { unfold constructed. rewrite Hf0, Hi0. do 2 f_equal.
      unfold getAttribute, w0. simpl. rewrite decide_True by done.
      by rewrite lookup_insert_ne. }
    assert (getAttribute this "for" w ≠ Some id) as Hne by done.
    rewrite (emitted_attributeChangedCallback _ _ _ _ _ a) by done.
    destruct (attributeChangedCallback_spec this "for" (getAttribute this "for" w)
                (Some id) w0 a Hne Ha0) as [_ ->].
    unfold rebuilt. rewrite Hreb, Hcons. unfold destroyed. rewrite Ha0.
    destruct (reattachState_spec this w0) as (_ & _ & -> & _). rewrite Hcons.
    split; [done | apply lookup_insert_eq].
  - intros Hold.
    rewrite emitted_setAttribute_observed, setAttribute_observed by apply for_observed.
    rewrite Hold, emitted_no_change. split; [done|].
    unfold attributeChangedCallback. by rewrite bool_decide_eq_true_2.
Qed.

Lemma for_attribute_change_rebinds_witness :
  emitted (setAttribute 0 "for" "other") (run [ConnectedCallback 0] (initial two_lists))
    = [Destroy 0; New_Autocomplete (engine 1 2 5)]
  ∧ emitted (setAttribute 0 "for" "list") (run [ConnectedCallback 0] (initial two_lists))
    = [].
Proof.
  destruct (for_attribute_change_rebinds 0 "other" 5 2 (engine 0 2 1)
              (run [ConnectedCallback 0] (initial two_lists))) as [H _];
    [by vm_compute|].
  destruct (for_attribute_change_rebinds 0 "list" 1 2 (engine 0 2 1)
              (run [ConnectedCallback 0] (initial two_lists))) as [_ H'];
    [by vm_compute|].
  split.
  - etrans; [apply H; try done; by vm_compute | by vm_compute].
  - apply H'. by vm_compute.
Defined.

Lemma rebind_ext this w w' :
  state w' !! this = state w !! this →
  priv w' = priv w →
  isConnected (dom w') = isConnected (dom w) →
  getRootNode (dom w') = getRootNode (dom w) →
  getElementById (dom w') = getElementById (dom w) →
  querySelector (dom w') = querySelector (dom w) →
  getAttribute this "for" w' = getAttribute this "for" w →
  rebind this w' = rebind this w.
Proof.
  intros Hs Hp Hc Hr Hg Hq Hfor.
  unfold rebind, forElement, inputElement, connected.
  by rewrite Hs, Hp, Hc, Hr, Hg, Hq, Hfor.
Qed.

Lemma attributeChangedCallback_no_rebind this name o n w a :
  o ≠ n → state w !! this = Some a → rebind this w = false →
  trace (attributeChangedCallback this name o n w).2 = trace w ++ command this name n a
  ∧ state (attributeChangedCallback this name o n w).2 = state w
  ∧ dom (attributeChangedCallback this name o n w).2 = dom w
  ∧ priv (attributeChangedCallback this name o n w).2 = priv w.
Proof.
  intros Hne Ha Hreb.
  destruct (attributeChangedCallback_spec this name o n w a Hne Ha) as [Htr Hst].
  unfold rebuilt in Htr. rewrite Hreb in Htr, Hst. simpl in Htr.
  split; [done|]. split; [done|]. split; [|apply attributeChangedCallback_priv].
  unfold attributeChangedCallback. rewrite bool_decide_eq_false_2 by done. run_M.
  rewrite Ha. fold (rebind this w). rewrite Hreb. simpl.
  repeat case_match; simplify_eq/=; done.
Qed.

(** X12: with the bindings of the host unchanged, setting [open] to true
    and then to false through the property calls [open()] once and then
    [close()] once, both on the engine the table holds, and nothing
    else. *)
Theorem open_then_close_commands_engine_once_each (this : Element) (a : Autocomplete)
    (w : World) :
  state w !! this = Some a →
  rebind this w = false →
  getAttribute this "open" w = None →
  emitted (set_open this true;; set_open this false) w = [Open (uid a); Close (uid a)].
Proof.
  intros Ha Hreb Hopen. unfold emitted, set_open.
  rewrite bind_snd by apply setAttribute_normal.
  rewrite setAttribute_observed by apply open_observed. rewrite Hopen.
  set (w0 := with_attributes this (λ m, <["open" := ""]> m) w).
  assert (rebind this w0 = false) as Hreb0.
  { rewrite <- Hreb. apply rebind_ext; try done.
    unfold getAttribute, w0. simpl. rewrite decide_True by done.
    by rewrite lookup_insert_ne. }
  destruct (attributeChangedCallback_no_rebind this "open" None (Some "") w0 a)
    as (Htr1 & Hst1 & Hdom1 & Hp1); [done..|].
  set (w1 := (attributeChangedCallback this "open" None (Some "") w0).2) in *.
  assert (getAttribute this "open" w1 = Some "") as Hopen1.
  { unfold getAttribute. rewrite Hdom1. unfold w0. simpl.
    rewrite decide_True by done. apply lookup_insert_eq. }
  rewrite (removeAttribute_observed this "open" "" w1 open_observed Hopen1).
  set (w2 := with_attributes this (λ m, delete "open" m) w1).
  assert (state w2 !! this = Some a) as Ha2.
  { unfold w2. simpl. by rewrite Hst1. }
  assert (getAttribute this "for" w2 = getAttribute this "for" w) as Hfor2.
  { unfold w2. rewrite getAttribute_with_attributes, decide_True by done.
    rewrite lookup_delete_ne, Hdom1 by done. unfold w0. simpl.
    rewrite decide_True by done. by rewrite lookup_insert_ne. }
  assert (rebind this w2 = false) as Hreb2.
  { rewrite <- Hreb. apply rebind_ext; try done; unfold w2; simpl;
      rewrite ?Hst1, ?Hp1, ?Hdom1; done. }
  destruct (attributeChangedCallback_no_rebind this "open" (Some "") None w2 a)
    as (Htr2 & _); [done..|].
  rewrite Htr2. change (trace w2) with (trace w1). rewrite Htr1.
  change (trace w0) with (trace w). rewrite <- app_assoc, drop_app_length. done.
Qed.

Lemma open_then_close_commands_engine_once_each_witness :
  emitted (set_open 0 true;; set_open 0 false)
    (run [ConnectedCallback 0] (initial (page (Some 1) (Some 2))))
  = [Open 0; Close 0].
Proof.
  apply (open_then_close_commands_engine_once_each 0 (engine 0 2 1)
           (run [ConnectedCallback 0] (initial (page (Some 1) (Some 2)))));
    by vm_compute.
Defined.

(** X13: setting [open] through the property to the value it already has
    is silent: the second of two equal assignments adds nothing to the
    trace and leaves the table alone, because the attribute it writes is
    the attribute that is there. *)
Theorem set_open_twice_second_is_silent (this : Element) (b : bool) (w : World) :
  emitted (set_open this b) (set_open this b w).2 = []
  ∧ state (set_open this b (set_open this b w).2).2 = state (set_open this b w).2.
Proof.
  unfold set_open. destruct b.
  - set (w1 := (setAttribute this "open" "" w).2).
    assert (getAttribute this "open" w1 = Some "") as Hopen.
    { unfold w1. rewrite getAttribute_setAttribute by (by left). by rewrite decide_True. }
    rewrite emitted_setAttribute_observed, setAttribute_observed by apply open_observed.
    rewrite Hopen, emitted_no_change. split; [done|].
    unfold attributeChangedCallback. by rewrite bool_decide_eq_true_2.
  - set (w1 := (removeAttribute this "open" w).2).
    assert (getAttribute this "open" w1 = None) as Hopen.
    { unfold w1. rewrite getAttribute_removeAttribute by (by left). by rewrite decide_True. }
    unfold emitted. rewrite removeAttribute_absent by done. simpl.
    by rewrite drop_all.
Qed.

Lemma attributeChangedCallback_data_value_completion this o n w a :
  o ≠ n → state w !! this = Some a →
  (attributeChangedCallback this "data-value" o n w).1 =
  match hiddenInput a with Some _ => Normal tt | None => Throw TypeError end.
Proof.
  intros Hne Ha. unfold attributeChangedCallback.
  rewrite bool_decide_eq_false_2 by done. run_M. rewrite Ha. fold (rebind this w).
  destruct (rebind this w).
  - destruct (reattachState_spec this w) as (Hr & _).
    destruct (reattachState this w) as [r w']. simpl in *. subst r. simpl.
    by destruct (hiddenInput a).
  - simpl. by destruct (hiddenInput a).
Qed.

(** X14: a change of [data-value] is written into the hidden input of
    the engine the table held when the callback started, a removal as
    [null].  When that engine has no hidden input the callback ends with
    a [TypeError] and writes nothing; through [setAttribute] the error is
    swallowed by the platform and the attribute is changed all the
    same. *)
Theorem data_value_change_needs_hidden_input (this : Element) (a : Autocomplete)
    (o n : option string) (v : string) (w : World) :
  state w !! this = Some a →
  o ≠ n →
  (∀ h, hiddenInput a = Some h →
     emitted (attributeChangedCallback this "data-value" o n) w
       = rebuilt this w ++ [SetValue h n]
     ∧ (attributeChangedCallback this "data-value" o n w).1 = Normal tt)
  ∧ (hiddenInput a = None →
     emitted (attributeChangedCallback this "data-value" o n) w = rebuilt this w
     ∧ (attributeChangedCallback this "data-value" o n w).1 = Throw TypeError
     ∧ (setAttribute this "data-value" v w).1 = Normal tt
     ∧ dataValue this (setAttribute this "data-value" v w).2 = v).
Proof.
  intros Ha Hne.
  pose proof (emitted_attributeChangedCallback this "data-value" o n w a Hne Ha) as Hem.
  pose proof (attributeChangedCallback_data_value_completion this o n w a Hne Ha) as Hc.
  unfold command in Hem. simpl in Hem. split.
  - intros h Hh. by rewrite Hh in Hem, Hc.
  - intros Hh. rewrite Hh, app_nil_r in Hem. rewrite Hh in Hc.
    split; [done|]. split; [done|]. split; [apply setAttribute_normal|].
    unfold dataValue. rewrite or_string_default.
    rewrite getAttribute_setAttribute by (by left). by rewrite decide_True.
Qed.

Lemma data_value_change_needs_hidden_input_witness :
  (attributeChangedCallback 0 "data-value" None (Some "42")
     (run [ConnectedCallback 0] (initial (page (Some 1) (Some 2))))).1
  = Throw TypeError
  ∧ emitted (attributeChangedCallback 0 "data-value" None (Some "42"))
      (run [ConnectedCallback 0] (initial (page (Some 1) (Some 2))))
    = [].
Proof.
  destruct (data_value_change_needs_hidden_input 0 (engine 0 2 1) None (Some "42") "42"
              (run [ConnectedCallback 0] (initial (page (Some 1) (Some 2)))))
    as [_ H]; [by vm_compute | done |].
  destruct (H eq_refl) as (Hem & Hc & _).
  split; [exact Hc | etrans; [exact Hem | by vm_compute]].
Defined.

(** ** Hosts do not interfere *)

(** The preservation argument again, for the calls made on the hosts in
    [hosts] only. *)
Section PreservationOn.
Variable I : World → Prop.
Variable hosts : Element → Prop.

Hypothesis I_set_dom : ∀ d, preserves I (set_dom d).
Hypothesis I_set_priv : ∀ this f, preserves I (set_priv this f).
Hypothesis I_command : ∀ e, is_command e → preserves I (emit e).
Hypothesis I_reattachState : ∀ this, hosts this → preserves I (reattachState this).
Hypothesis I_disconnectedCallback :
  ∀ this, hosts this → preserves I (disconnectedCallback this).

Ltac preserves_on_step :=
  match goal with
  | |- preserves _ (_ ≫= _) => apply preserves_bind; [|intros ?]
  | |- preserves _ (emit _) => apply I_command; simpl; tauto
  | |- preserves _ (reaction _) => apply preserves_reaction
  | |- preserves _ (if ?b then _ else _) => destruct b
  | |- preserves _ (match ?x with _ => _ end) => destruct x
  | |- preserves _ _ =>
      first [ apply preserves_ret | apply preserves_mret | apply preserves_throw
            | apply preserves_gets | apply I_set_dom | apply I_set_priv
            | by apply I_reattachState | by apply I_disconnectedCallback ]
  end.

Lemma preserves_on_attributeChangedCallback this name o n :
  hosts this → preserves I (attributeChangedCallback this name o n).
Proof. intros Hh. unfold attributeChangedCallback. repeat preserves_on_step. Qed.

Lemma preserves_on_setAttribute this name v :
  hosts this → preserves I (setAttribute this name v).
Proof.
  intros Hh. unfold setAttribute. repeat preserves_on_step.
  by apply preserves_on_attributeChangedCallback.
Qed.

Lemma preserves_on_removeAttribute this name :
  hosts this → preserves I (removeAttribute this name).
Proof.
  intros Hh. unfold removeAttribute. repeat preserves_on_step.
  by apply preserves_on_attributeChangedCallback.
Qed.

Lemma preserves_on_call c :
  (∀ h, host_of c = Some h → hosts h) → preserves I (call c).
Proof.
  intros Hc.
  destruct c; simpl; try (specialize (Hc _ eq_refl));
    unfold connectedCallback, set_forElement, set_inputElement, set_hiddenInputElement,
      set_src, set_value, set_dataValue, set_open, set_fetchOnEmpty, toggleAttribute;
    repeat first [ by apply preserves_on_attributeChangedCallback
                 | by apply preserves_on_setAttribute
                 | by apply preserves_on_removeAttribute
                 | preserves_on_step ].
Qed.
End PreservationOn.

Lemma live_subseteq_constructions tr x : x ∈ live tr → x ∈ constructions tr.
Proof.
  induction tr as [|e tr IH] using rev_ind.
  - unfold live. simpl. by intros ?%elem_of_nil.
  - rewrite live_snoc, constructions_snoc. destruct e; simpl;
      rewrite ?app_nil_r; try done.
    + rewrite !elem_of_app. intros [?|?]; [left; by apply IH | by right].
    + intros [_ ?]%list_elem_of_filter. by apply IH.
Qed.

Lemma NoDup_fmap_eq {A B} (f : A → B) (l : list A) x y :
  NoDup (f <$> l) → x ∈ l → y ∈ l → f x = f y → x = y.
Proof.
  induction l as [|z l IH]; [by intros _ ?%elem_of_nil|].
  rewrite fmap_cons, NoDup_cons, !elem_of_cons.
  intros [Hz Hnd] [->|Hx] [->|Hy] Hf; [done| | |by apply IH].
  - destruct Hz. rewrite Hf. by apply list_elem_of_fmap_2.
  - destruct Hz. rewrite <- Hf. by apply list_elem_of_fmap_2.
Qed.

Lemma filter_filter_absorb {A} (P Q : A → Prop)
    `{!∀ x, Decision (P x)} `{!∀ x, Decision (Q x)} (l : list A) :
  (∀ x, x ∈ l → P x → Q x) → filter P (filter Q l) = filter P l.
Proof.
  induction l as [|x l IH]; intros Himp; [done|].
  assert (filter P (filter Q l) = filter P l) as IH'.
  { apply IH. intros y Hy. apply Himp. by right. }
  rewrite !filter_cons. destruct (decide (Q x)) as [HQ|HQ].
  - rewrite filter_cons. by rewrite IH'.
  - rewrite IH'. destruct (decide (P x)) as [HP|]; [|done].
    destruct HQ. apply Himp; [by left | done].
Qed.

(** Destroying the engine one host has in the table ends the life of no
    engine of another host. *)
Lemma live_for_destroyed_other this other w :
  Good w → this ≠ other →
  live_for other (trace w ++ destroyed this w) = live_for other (trace w).
Proof.
  intros ([Hc _] & [_ Hnd] & Hk) Hne. unfold destroyed.
  destruct (state w !! this) as [a|] eqn:Ha; [|by rewrite app_nil_r].
  unfold live_for. rewrite live_snoc. simpl. apply filter_filter_absorb.
  intros x Hx Hcont Huid. destruct (Hk _ _ Ha) as [Hca Hina].
  assert (x = a) as ->.
  { eapply (NoDup_fmap_eq uid); [done| |done|done].
    by apply live_subseteq_constructions. }
  congruence.
Qed.

Lemma Keyed_emit e : preserves Keyed (emit e).
Proof.
  intros w Hk h a Ha. destruct (Hk h a Ha) as [Hc Hin]. split; [done|]. simpl.
  rewrite constructions_snoc, elem_of_app. by left.
Qed.

Lemma Keyed_reattachState this : preserves Keyed (reattachState this).
Proof.
  intros w Hk h a.
  destruct (reattachState_spec this w) as (_ & -> & -> & _).
  rewrite app_assoc.
  destruct (constructed this w) as [a'|] eqn:Ha'.
  - assert (container a' = this) as Hcont.
    { unfold constructed in Ha'. repeat case_match; by simplify_eq. }
    rewrite constructions_snoc, constructions_destroyed, elem_of_app.
    destruct (decide (h = this)) as [->|Hne].
    + rewrite lookup_insert_eq. intros [= ->]. split; [done|]. right. by left.
    + rewrite lookup_insert_ne by done. intros Ha.
      destruct (Hk h a Ha). split; [done | by left].
  - rewrite app_nil_r, constructions_destroyed. apply Hk.
Qed.

Lemma Keyed_disconnectedCallback this : preserves Keyed (disconnectedCallback this).
Proof.
  intros w Hk h a.
  destruct (disconnectedCallback_world this w) as [->|[_ ->]]; [|apply Hk]. simpl.
  rewrite constructions_destroyed. intros Ha.
  apply Hk. by apply lookup_delete_Some in Ha as [_ ?].
Qed.

Lemma Good_emit e : ¬ is_New e → preserves Good (emit e).
Proof.
  intros He w (Hi & Hf & Hk).
  split; [by apply Inv_emit|]. split; [by apply Fresh_emit | by apply Keyed_emit].
Qed.

Lemma Good_reattachState this : preserves Good (reattachState this).
Proof.
  intros w (Hi & Hf & Hk). split; [by apply Inv_reattachState|].
  split; [by apply Fresh_reattachState | by apply Keyed_reattachState].
Qed.

Lemma Good_disconnectedCallback this : preserves Good (disconnectedCallback this).
Proof.
  intros w (Hi & Hf & Hk). split; [by apply Inv_disconnectedCallback|].
  split; [by apply Fresh_disconnectedCallback | by apply Keyed_disconnectedCallback].
Qed.

Lemma Good_run d cs : Good (run cs (initial d)).
Proof.
  apply (preserves_run Good).
  - by intros d' w'.
  - by intros this f w'.
  - apply Good_emit.
  - apply Good_reattachState.
  - apply Good_disconnectedCallback.
  - split; [apply Inv_initial|]. split.
    + split; simpl; [constructor | apply NoDup_nil_2].
    + intros h a Ha. simpl in Ha. by rewrite lookup_empty in Ha.
Qed.

Lemma is_command_not_New e : is_command e → ¬ is_New e.
Proof. destruct e; simpl; tauto. Qed.

Lemma Untouched_reattachState this other w0 w :
  this ≠ other → Good w → Untouched other w0 w →
  Untouched other w0 (reattachState this w).2.
Proof.
  intros Hne Hg [Hs Hl].
  pose proof (live_for_destroyed_other this other w Hg Hne) as Hd.
  destruct (reattachState_spec this w) as (_ & Htr & Hst & _).
  unfold Untouched. rewrite Htr, Hst, app_assoc.
  destruct (constructed this w) as [a|] eqn:Ha.
  - assert (container a = this) as Hcont.
    { unfold constructed in Ha. repeat case_match; by simplify_eq. }
    rewrite lookup_insert_ne by done. split; [done|].
    rewrite live_for_snoc_New, decide_False, app_nil_r by congruence. congruence.
  - rewrite app_nil_r. split; [done | congruence].
Qed.

Lemma Untouched_disconnectedCallback this other w0 w :
  this ≠ other → Good w → Untouched other w0 w →
  Untouched other w0 (disconnectedCallback this w).2.
Proof.
  intros Hne Hg [Hs Hl].
  pose proof (live_for_destroyed_other this other w Hg Hne) as Hd.
  destruct (disconnectedCallback_world this w) as [->|[_ ->]]; [|done].
  unfold Untouched. simpl. rewrite lookup_delete_ne by done. split; [done | congruence].
Qed.

(** X15: hosts do not interfere.  Along any history, a call made on one
    host, or a change of the document, leaves every other host with the
    table entry and with the live engines it had. *)
Theorem hosts_are_isolated (d : Dom) (cs : list Call) (c : Call) (other : Element) :
  host_of c ≠ Some other →
  state (perform (run cs (initial d)) c) !! other = state (run cs (initial d)) !! other
  ∧ live_for other (trace (perform (run cs (initial d)) c))
    = live_for other (trace (run cs (initial d))).
Proof.
  intros Hc. set (w := run cs (initial d)).
  assert (preserves (λ w', Good w' ∧ Untouched other w w') (call c)) as H.
  { apply (preserves_on_call _ (λ h, h ≠ other)).
    - by intros d' w'.
    - by intros this f w'.
    - intros e He w' [Hg [Hs Hl]]. split.
      + apply Good_emit; [by apply is_command_not_New | done].
      + split; [done|]. simpl. unfold live_for. rewrite live_snoc.
        by destruct e.
    - intros this Hne w' [Hg Hu]. split; [by apply Good_reattachState|].
      by apply Untouched_reattachState.
    - intros this Hne w' [Hg Hu]. split; [by apply Good_disconnectedCallback|].
      by apply Untouched_disconnectedCallback.
    - intros h Hh ->. by rewrite Hh in Hc. }
  destruct (H w) as [_ Hu]; [|exact Hu].
  split; [apply Good_run | done].
Qed.

Lemma hosts_are_isolated_witness :
  live_for 10 (trace (perform (run [ConnectedCallback 0; ConnectedCallback 10]
                                 (initial two_hosts))
                        (DisconnectedCallback 0)))
  = [{| uid := 1; container := 10; input := 12; hiddenInput := None; results := 1;
        autoselectEnabled := false |}].
Proof.
  etrans; [|by vm_compute].
  apply (hosts_are_isolated two_hosts [ConnectedCallback 0; ConnectedCallback 10]
           (DisconnectedCallback 0) 10).
  discriminate.
Defined.

(** * Further properties of the request controller *)

Lemma NKeyed_turn n t : NKeyed n → NKeyed (turn n t).
Proof.
  intros [Hlt Hinj]. destruct t as [this url| | |].
  - split; simpl.
    + intros h c. case_decide; [intros [= <-]; lia|]. intros Hc.
      specialize (Hlt _ _ Hc). lia.
    + intros h1 h2 c. repeat case_decide; subst; try done.
      * intros [= <-] Hc. specialize (Hlt _ _ Hc). lia.
      * intros Hc [= <-]. specialize (Hlt _ _ Hc). lia.
      * apply Hinj.
  - done.
  - destruct (turn_frame n (Fetch_settles promise r)) as (_ & Hr & Hk); [done|].
    unfold NKeyed. by rewrite Hr, Hk.
  - destruct (turn_frame n (Resume promise)) as (_ & Hr & Hk); [done|].
    unfold NKeyed. by rewrite Hr, Hk.
Qed.

Lemma NKeyed_turns ts : NKeyed (turns ts Net_init).
Proof.
  assert (∀ n, NKeyed n → NKeyed (turns ts n)) as H.
  { induction ts as [|t ts IH]; intros n Hn; [done|].
    simpl. apply IH. by apply NKeyed_turn. }
  apply H. split; simpl; done.
Qed.

(** X16: requests are per host.  Along any history, once [fetchResult]
    has run on a host its one current request is the new one, and the
    current requests of every other host are what they were: a call
    never aborts the request of another element. *)
Theorem requests_are_per_host (ts : list Turn) (this other : Element) (url : string) :
  current_for this (log (fetchResult this url (turns ts Net_init)))
    = [(this, controllers (turns ts Net_init))]
  ∧ (other ≠ this →
     current_for other (log (fetchResult this url (turns ts Net_init)))
     = current_for other (log (turns ts Net_init))).
Proof.
  set (n := turns ts Net_init).
  destruct (NInv_turns ts Net_init NInv_init) as [Hc _]. fold n in Hc.
  destruct (NKeyed_turns ts) as [_ Hinj]. fold n in Hinj.
  rewrite log_fetchResult, app_assoc. unfold current_for.
  rewrite !current_snoc. simpl. rewrite !filter_app. split.
  - fold (current_for this (log n ++ aborted this n)).
    rewrite aborted_none_current by done.
    rewrite filter_cons. simpl. by rewrite decide_True.
  - intros Hne. rewrite filter_cons. simpl. rewrite decide_False by done.
    rewrite filter_nil, app_nil_r. unfold aborted.
    destruct (requestController n this) as [c|] eqn:Hrc; [|by rewrite app_nil_r].
    rewrite current_snoc. simpl. apply filter_filter_absorb.
    intros r Hr Hother Hsig. apply Hc in Hr. rewrite Hother, Hsig in Hr.
    by specialize (Hinj _ _ _ Hr Hrc).
Qed.

Lemma requests_are_per_host_witness :
  current (log (turns [Call_fetchResult 0 "/a"; Call_fetchResult 10 "/b";
                       Call_fetchResult 0 "/c"] Net_init))
  = [(10, 1); (0, 2)]
  ∧ current_for 10 (log (fetchResult 0 "/c"
                           (turns [Call_fetchResult 0 "/a"; Call_fetchResult 10 "/b"]
                              Net_init)))
    = [(10, 1)].
Proof.
  split; [by vm_compute|].
  destruct (requests_are_per_host [Call_fetchResult 0 "/a"; Call_fetchResult 10 "/b"]
              0 10 "/c") as [_ H].
  etrans; [apply H; discriminate | by vm_compute].
Defined.

Lemma ok_path i n res mid2 mid3 :
  promises n !! i = Some (AwaitFetch fetchResult_resumed) →
  ok res = true →
  Forall (λ t, target t ≠ Some i) mid2 → Forall (λ t, target t ≠ Some i) mid3 →
  promises (turns (Fetch_settles i (Normal res) :: mid2 ++ Resume i :: mid3 ++ [Resume i]) n)
    !! i
  = Some (Settled (ok_result (cspTrustedTypesPolicyPromise n) res)).
Proof.
  intros Hi Hok H2 H3.
  change (Fetch_settles i (Normal res) :: mid2 ++ Resume i :: mid3 ++ [Resume i])
    with ([Fetch_settles i (Normal res)] ++ mid2 ++ [Resume i] ++ mid3 ++ [Resume i]).
  rewrite !turns_app.
  pose proof (turn_Fetch_settles i (Normal res) _ n Hi) as H.
  unfold fetchResult_resumed in H. rewrite Hok in H. cbn [negb advance] in H.
  change (turns [Fetch_settles i (Normal res)] n) with (turn n (Fetch_settles i (Normal res))).
  set (n1 := turn n (Fetch_settles i (Normal res))) in *. clearbody n1.
  unfold ok_result.
  destruct (cspTrustedTypesPolicyPromise n) as [[p|e]|].
  - apply (turns_other_promise i mid2) in H; [|done].
    apply turn_Resume_policy in H. cbn [advance] in H.
    apply (turns_other_promise i mid3) in H; [|done].
    apply turn_Resume_text in H. by destruct (text res).
  - apply (turns_other_promise i mid2) in H; [|done].
    apply turn_Resume_policy in H. cbn [advance] in H.
    apply (turns_other_promise i mid3) in H; [|done].
    by apply turn_Resume_settled in H.
  - apply (turns_other_promise i mid2) in H; [|done].
    apply turn_Resume_text in H. cbn [advance] in H.
    apply (turns_other_promise i mid3) in H; [|done].
    by apply turn_Resume_settled in H.
Qed.

(** X17: [fetchResult] swallows no failure.  Whatever else happens in
    between, the call rejects with the reason it was given when [fetch]
    rejects (an abort included), when reading the body of a response
    fails (on a 2xx response: unless the promise of the policy has
    rejected first), when the promise of the policy rejects, and when the
    policy's [createHTML] throws. *)
Theorem fetchResult_failures_propagate (this : Element) (url : string) (n : Net)
    (res : Response) (e : Exn) (mid1 mid2 mid3 : list Turn) :
  Forall (λ t, target t ≠ Some (length (promises n))) mid1 →
  Forall (λ t, target t ≠ Some (length (promises n))) mid2 →
  Forall (λ t, target t ≠ Some (length (promises n))) mid3 →
  promises (turns (Call_fetchResult this url
                     :: mid1 ++ [Fetch_settles (length (promises n)) (Throw e)]) n)
    !! length (promises n)
    = Some (Settled (Throw e))
  ∧ (ok res = false → text res = Throw e →
     promises (turns (Call_fetchResult this url
                        :: mid1 ++ Fetch_settles (length (promises n)) (Normal res)
                        :: mid2 ++ [Resume (length (promises n))]) n)
       !! length (promises n)
     = Some (Settled (Throw e)))
  ∧ (ok res = true →
     (cspTrustedTypesPolicyPromise (turns (Call_fetchResult this url :: mid1) n)
        = Some (Throw e)
      ∨ (text res = Throw e
         ∧ ∀ e', cspTrustedTypesPolicyPromise (turns (Call_fetchResult this url :: mid1) n)
                   ≠ Some (Throw e'))
      ∨ ∃ p s, cspTrustedTypesPolicyPromise (turns (Call_fetchResult this url :: mid1) n)
                 = Some (Normal p)
               ∧ text res = Normal s ∧ createHTML p s res = Throw e) →
     promises (turns (Fetch_settles (length (promises n)) (Normal res)
                        :: mid2 ++ Resume (length (promises n))
                        :: mid3 ++ [Resume (length (promises n))])
                 (turns (Call_fetchResult this url :: mid1) n))
       !! length (promises n)
     = Some (Settled (Throw e))).
Proof.
  intros H1 H2 H3.
  pose proof (fetchResult_in_flight this url n mid1 H1) as H.
  set (i := length (promises n)) in *.
  split; [|split].
  - change (Call_fetchResult this url :: mid1 ++ [Fetch_settles i (Throw e)])
      with ((Call_fetchResult this url :: mid1) ++ [Fetch_settles i (Throw e)]).
    rewrite turns_app. by apply (turn_Fetch_settles i (Throw e)) in H.
  - intros Hok Htext.
    change (Call_fetchResult this url
              :: mid1 ++ Fetch_settles i (Normal res) :: mid2 ++ [Resume i])
      with ((Call_fetchResult this url :: mid1) ++ [Fetch_settles i (Normal res)]
              ++ mid2 ++ [Resume i]).
    rewrite !turns_app.
    apply (turn_Fetch_settles i (Normal res)) in H.
    unfold fetchResult_resumed in H. rewrite Hok in H. cbn [negb advance] in H.
    apply (turns_other_promise i mid2) in H; [|done].
    apply turn_Resume_text in H. by rewrite Htext in H.
  - intros Hok Hfail. rewrite (ok_path i _ res mid2 mid3) by done.
    unfold ok_result.
    destruct Hfail as [-> | [[Htext Hpol] | (p & s & -> & -> & Hp)]];
      [done| |by rewrite Hp].
    rewrite Htext. destruct (cspTrustedTypesPolicyPromise _) as [[?|e']|]; [done| |done].
    by destruct (Hpol e').
Qed.

Lemma fetchResult_failures_propagate_witness :
  promises (turns [Call_fetchResult 0 "/a"; Call_fetchResult 0 "/b";
                   Fetch_settles 0 (Throw (DOMException "AbortError"))] Net_init) !! 0
  = Some (Settled (Throw (DOMException "AbortError"))).
Proof.
  destruct (fetchResult_failures_propagate 0 "/a" Net_init
              {| status := 200; text := Normal "" |} (DOMException "AbortError")
              [Call_fetchResult 0 "/b"] [] []) as [H _].
  - repeat constructor. discriminate.
  - constructor.
  - constructor.
  - exact H.
Defined.

(** * Further properties of the dispatcher *)

Lemma rebind_false_inputElement this w a :
  state w !! this = Some a → rebind this w = false →
  forElement this w = Some (results a) ∧ inputElement this w = Some (input a).
Proof.
  intros Ha. unfold rebind. rewrite Ha. simpl.
  intros [Hf Hi]%orb_false_elim. unfold strict_ne in *.
  destruct (forElement this w) as [f|]; [|done].
  destruct (inputElement this w) as [i|]; [|done].
  apply bool_decide_eq_false_1 in Hf, Hi.
  split; f_equal; by apply dec_stable.
Qed.

(** X18: with the bindings of the host unchanged (the rebind check does
    not fire), a qualifying mutation of [value] writes a non-null new
    value into the input the host currently resolves, which is the input
    of the engine in the table, and then dispatches one bubbling
    [auto-complete-change] event with that input as [relatedTarget]; a
    transition to null only dispatches.  Setting [value] to ["abc"] and
    removing it again gives exactly one write and two events. *)
Theorem value_mutation_on_unchanged_bindings (this : Element) (a : Autocomplete)
    (o n : option string) (w : World) :
  state w !! this = Some a →
  rebind this w = false →
  o ≠ n →
  inputElement this w = Some (input a)
  ∧ emitted (attributeChangedCallback this "value" o n) w =
      match n with Some v => [SetValue (input a) (Some v)] | None => [] end
        ++ [DispatchEvent this {| type := "auto-complete-change"; bubbles := true;
                                   relatedTarget := input a |}]
  ∧ (getAttribute this "value" w ≠ Some "abc" →
     emitted (setAttribute this "value" "abc";; removeAttribute this "value") w =
       [SetValue (input a) (Some "abc");
        DispatchEvent this {| type := "auto-complete-change"; bubbles := true;
                               relatedTarget := input a |};
        DispatchEvent this {| type := "auto-complete-change"; bubbles := true;
                               relatedTarget := input a |}]).
Proof.
  intros Ha Hreb Hne.
  split; [by apply (rebind_false_inputElement this w a)|]. split.
  - unfold emitted.
    destruct (attributeChangedCallback_no_rebind this "value" o n w a) as (-> & _);
      [done..|].
    by rewrite drop_app_length.
  - intros Hold. unfold emitted.
    rewrite bind_snd by apply setAttribute_normal.
    rewrite setAttribute_observed by apply value_observed.
    set (w0 := with_attributes this (λ m, <["value" := "abc"]> m) w).
    assert (rebind this w0 = false) as Hreb0.
    { rewrite <- Hreb. apply rebind_ext; try done.
      unfold getAttribute, w0. simpl. rewrite decide_True by done.
      by rewrite lookup_insert_ne. }
    destruct (attributeChangedCallback_no_rebind this "value"
                (getAttribute this "value" w) (Some "abc") w0 a)
      as (Htr1 & Hst1 & Hdom1 & Hp1); [done..|].
    set (w1 := (attributeChangedCallback this "value" (getAttribute this "value" w)
                  (Some "abc") w0).2) in *.
    assert (getAttribute this "value" w1 = Some "abc") as Hv1.
    { unfold getAttribute. rewrite Hdom1. unfold w0. simpl.
      rewrite decide_True by done. apply lookup_insert_eq. }
    rewrite (removeAttribute_observed this "value" "abc" w1 value_observed Hv1).
    set (w2 := with_attributes this (λ m, delete "value" m) w1).
    assert (state w2 !! this = Some a) as Ha2.
    { unfold w2. simpl. by rewrite Hst1. }
    assert (getAttribute this "for" w2 = getAttribute this "for" w) as Hfor2.
    { unfold w2. rewrite getAttribute_with_attributes, decide_True by done.
      rewrite lookup_delete_ne, Hdom1 by done. unfold w0. simpl.
      rewrite decide_True by done. by rewrite lookup_insert_ne. }
    assert (rebind this w2 = false) as Hreb2.
    { rewrite <- Hreb. apply rebind_ext; try done; unfold w2; simpl;
        rewrite ?Hst1, ?Hp1, ?Hdom1; done. }
    destruct (attributeChangedCallback_no_rebind this "value" (Some "abc") None w2 a)
      as (Htr2 & _); [done..|].
    rewrite Htr2. change (trace w2) with (trace w1). rewrite Htr1.
    change (trace w0) with (trace w). rewrite <- app_assoc, drop_app_length. done.
Qed.

Lemma value_mutation_on_unchanged_bindings_witness :
  emitted (setAttribute 0 "value" "abc";; removeAttribute 0 "value")
    (run [ConnectedCallback 0] (initial (page (Some 1) (Some 2))))
  = [SetValue 2 (Some "abc"); change_event 0 2; change_event 0 2]
  ∧ live_for 0 (trace (run [ConnectedCallback 0] (initial (page (Some 1) (Some 2)))))
    = [engine 0 2 1].
Proof.
  split; [|by vm_compute].
  destruct (value_mutation_on_unchanged_bindings 0 (engine 0 2 1) None (Some "abc")
              (run [ConnectedCallback 0] (initial (page (Some 1) (Some 2)))))
    as (_ & _ & H); [by vm_compute | by vm_compute | done |].
  apply H. by vm_compute.
Defined.
